(** * sanhok::net::ConnectionUDP

    A shallow embedding of [src/sanhok/net/connection_udp.hpp] and the
    properties of its lifecycle, receive pipeline, send path and multicast
    operations.

    The class owns a Boost.Asio UDP socket, an atomic open flag, a handoff
    queue and a dispatch thread.  Member functions are written in a small
    state-and-exception monad over the object's fields; the coroutines spawned
    on the io_context and the dispatch thread are program counters stepped by a
    scheduler, one atomic block at a time.  What the operating system answers
    (error codes, datagram payloads) is an argument of each operation. *)

From Stdlib Require Import ZArith.
From stdpp Require Import list.

Open Scope Z_scope.

(** ** Values *)

(** [uint8_t] and [std::vector<uint8_t>]. *)
Abbreviation byte := Byte.byte.
Abbreviation buffer := (list Byte.byte).

(** [boost::system::error_code]: the numeric value; [if (ec)] tests it for
    being non-zero. *)
Abbreviation error_code := Z (only parsing).

Definition ec_failed (ec : error_code) : bool := negb (ec =? 0).

Definition success : error_code := 0.
Definition bad_descriptor : error_code := 9.
Definition not_connected : error_code := 107.
Definition operation_aborted : error_code := 125.

(** [boost::system::system_error], the only exception type the unit handles. *)
Inductive exn := system_error (ec : error_code).

Inductive ip_address := address_v4 (a : N) | address_v6 (a : N).

(** [udp::endpoint]. *)
Record endpoint := mk_endpoint { ep_address : ip_address; ep_port : N }.

(** [std::shared_ptr<flatbuffers::DetachedBuffer>]: the bytes it points to. *)
Abbreviation packet := (list Byte.byte) (only parsing).

(** The messages handed to spdlog, one constructor per call site. *)
Inductive log_msg :=
| info_bound (a : ip_address) (p : N)
| error_connecting (e : exn)
| info_connected (a : ip_address) (p : N)
| info_close (a : ip_address) (p : N)
| error_closing (e : exn)
| error_sending (ec : error_code)
| error_joining (ec : error_code)
| error_leaving (ec : error_code)
| error_receiving (ec : error_code).

(** Observable effects, newest first in [trace]. *)
Inductive event :=
| ev_log (m : log_msg)
| ev_flag (new : bool)              (* is_open_ changed its value to [new] *)
| ev_queue_clear
| ev_queue_push (b : buffer)
| ev_queue_pop (b : buffer)
| ev_socket_close
| ev_async_receive (size : nat)     (* a receive was issued on the socket *)
| ev_async_send (p : packet)        (* a send was issued on the socket *)
| ev_co_spawn_receive               (* open() scheduled the receive loop *)
| ev_co_spawn_send (p : packet)     (* send_packet scheduled a send *)
| ev_thread_start (tid : nat)
| ev_thread_join (tid : nat)
| ev_on_packet (b : buffer)         (* the packet handler ran *)
| ev_destroyed.                     (* ~ConnectionUDP returned *)

(** ** The socket

    [udp::socket] is Boost.Asio's; what the unit relies on is modelled here:
    the descriptor, the bound and the connected endpoint, and the two options
    [join_multicast_group] sets. *)
Record udp_socket := mk_socket {
  sock_is_open : bool;
  sock_local : endpoint;
  sock_remote : option endpoint;
  sock_reuse_address : bool;
  sock_groups : list ip_address
}.

Inductive socket_option :=
| reuse_address (b : bool)
| join_group (a : ip_address)
| leave_group (a : ip_address).

Definition ip_address_eqb (a b : ip_address) : bool :=
  match a, b with
  | address_v4 x, address_v4 y => (x =? y)%N
  | address_v6 x, address_v6 y => (x =? y)%N
  | _, _ => false
  end.

Definition apply_option (o : socket_option) (s : udp_socket) : udp_socket :=
  match o with
  | reuse_address b =>
      mk_socket (sock_is_open s) (sock_local s) (sock_remote s) b (sock_groups s)
  | join_group a =>
      mk_socket (sock_is_open s) (sock_local s) (sock_remote s)
        (sock_reuse_address s) (a :: sock_groups s)
  | leave_group a =>
      mk_socket (sock_is_open s) (sock_local s) (sock_remote s)
        (sock_reuse_address s)
        (filter (λ g, ip_address_eqb a g = false) (sock_groups s))
  end.

(** ** Execution contexts *)

(** [std::thread]: the handle either names a running thread or is empty
    (default constructed, or after [detach()]). *)
Inductive std_thread := not_a_thread | thread_of (tid : nat).

Definition joinable (t : std_thread) : bool :=
  match t with thread_of _ => true | not_a_thread => false end.

(** The receive coroutine spawned by [open()]:
    [while (is_open_) co_await receive_packet();].
    It is at the loop head, suspended in [async_receive] with its buffer, or
    finished.  [r_forced] is the error a suspended receive is bound to
    complete with: [bad_descriptor] when it was issued on a closed socket,
    [operation_aborted] when the socket was closed under it. *)
Inductive receiver_pc :=
| R_head
| R_await (buf : buffer) (r_forced : option error_code)
| R_done.

(** The coroutine spawned by [send_packet]; it holds the packet until it
    finishes. *)
Inductive sender_pc :=
| S_start (p : packet)
| S_await (p : packet) (s_forced : option error_code)
| S_done.

(** The dispatch thread started by [open()]: at the loop head, inside
    [pop_wait()], woken without an item, holding a popped packet, or
    returned. *)
Inductive worker_pc :=
| W_head
| W_wait
| W_woken
| W_have (b : buffer)
| W_done.

(** Where the object is in its life; [terminated] is the process after
    [std::terminate]. *)
Inductive phase := alive | destructing | destroyed | terminated.

(** ** The object and its surroundings

    The first five fields are the data members of [ConnectionUDP]
    ([on_packet_] shows as [ev_on_packet], [ctx_] as the coroutine lists). *)
Record World := mk_world {
  socket_ : udp_socket;
  is_open_ : bool;
  receive_buffer_size_ : nat;
  receive_queue_ : list buffer;
  worker_ : std_thread;
  receivers : list receiver_pc;
  senders : list sender_pc;
  workers : list worker_pc;
  life : phase;
  trace : list event
}.

Definition with_socket (s : udp_socket) (w : World) : World :=
  mk_world s (is_open_ w) (receive_buffer_size_ w) (receive_queue_ w)
    (worker_ w) (receivers w) (senders w) (workers w) (life w) (trace w).
Definition with_is_open (b : bool) (w : World) : World :=
  mk_world (socket_ w) b (receive_buffer_size_ w) (receive_queue_ w)
    (worker_ w) (receivers w) (senders w) (workers w) (life w) (trace w).
Definition with_queue (q : list buffer) (w : World) : World :=
  mk_world (socket_ w) (is_open_ w) (receive_buffer_size_ w) q
    (worker_ w) (receivers w) (senders w) (workers w) (life w) (trace w).
Definition with_worker (t : std_thread) (w : World) : World :=
  mk_world (socket_ w) (is_open_ w) (receive_buffer_size_ w) (receive_queue_ w)
    t (receivers w) (senders w) (workers w) (life w) (trace w).
Definition with_receivers (r : list receiver_pc) (w : World) : World :=
  mk_world (socket_ w) (is_open_ w) (receive_buffer_size_ w) (receive_queue_ w)
    (worker_ w) r (senders w) (workers w) (life w) (trace w).
Definition with_senders (s : list sender_pc) (w : World) : World :=
  mk_world (socket_ w) (is_open_ w) (receive_buffer_size_ w) (receive_queue_ w)
    (worker_ w) (receivers w) s (workers w) (life w) (trace w).
Definition with_workers (k : list worker_pc) (w : World) : World :=
  mk_world (socket_ w) (is_open_ w) (receive_buffer_size_ w) (receive_queue_ w)
    (worker_ w) (receivers w) (senders w) k (life w) (trace w).
Definition with_life (p : phase) (w : World) : World :=
  mk_world (socket_ w) (is_open_ w) (receive_buffer_size_ w) (receive_queue_ w)
    (worker_ w) (receivers w) (senders w) (workers w) p (trace w).
Definition with_trace (t : list event) (w : World) : World :=
  mk_world (socket_ w) (is_open_ w) (receive_buffer_size_ w) (receive_queue_ w)
    (worker_ w) (receivers w) (senders w) (workers w) (life w) t.

(** ** The monad of member functions

    A call runs on the world and returns normally, leaves with an exception,
    or ends the process ([std::terminate]). *)
Inductive Res (A : Type) :=
| Ok (a : A)
| Throw (e : exn)
| Abort.
Arguments Ok {A} a.
Arguments Throw {A} e.
Arguments Abort {A}.

Definition M (A : Type) : Type := World → Res A * World.

Definition ret {A} (a : A) : M A := λ w, (Ok a, w).

Definition bind {A B} (m : M A) (f : A → M B) : M B := λ w,
  match m w with
  | (Ok a, w') => f a w'
  | (Throw e, w') => (Throw e, w')
  | (Abort, w') => (Abort, w')
  end.

Declare Scope conn_scope.
Delimit Scope conn_scope with conn.
Notation "x ← y ; z" := (bind y (λ x, z))
  (at level 20, y at level 100, z at level 200, only parsing) : conn_scope.
Notation "x ;; z" := (bind x (λ _, z))
  (at level 100, z at level 200, only parsing, right associativity) : conn_scope.
Open Scope conn_scope.

Definition get : M World := λ w, (Ok w, w).
Definition modify (f : World → World) : M unit := λ w, (Ok tt, f w).
Definition throw {A} (e : exn) : M A := λ w, (Throw e, w).
Definition terminate {A} : M A := λ w, (Abort, w).

(** [try { m } catch (const boost::system::system_error& e) { h e }]. *)
Definition try_catch {A} (m : M A) (h : exn → M A) : M A := λ w,
  match m w with
  | (Throw e, w') => h e w'
  | r => r
  end.

(** A [noexcept] function: an exception that leaves it ends the process. *)
Definition noexcept {A} (m : M A) : M A := λ w,
  match m w with
  | (Throw _, w') => (Abort, w')
  | r => r
  end.

Definition emit (e : event) : M unit :=
  modify (λ w, with_trace (e :: trace w) w).

Definition spdlog (m : log_msg) : M unit := emit (ev_log m).

(** ** Primitives on the data members *)

(** [is_open_.load()]. *)
Definition read_is_open : M bool := w ← get; ret (is_open_ w).

(** [is_open_.exchange(b)]: stores [b], returns the old value. *)
Definition is_open_exchange (b : bool) : M bool :=
  w ← get;
  modify (with_is_open b);;
  (if Bool.eqb (is_open_ w) b then ret tt else emit (ev_flag b));;
  ret (is_open_ w).

(** [socket_.local_endpoint()], the throwing overload: [bad_descriptor] on a
    closed socket. *)
Definition socket_local_endpoint : M endpoint :=
  w ← get;
  if sock_is_open (socket_ w) then ret (sock_local (socket_ w))
  else throw (system_error bad_descriptor).

(** [socket_.remote_endpoint()], the throwing overload: [not_connected] when
    the socket has no peer. *)
Definition socket_remote_endpoint : M endpoint :=
  w ← get;
  if sock_is_open (socket_ w) then
    match sock_remote (socket_ w) with
    | Some ep => ret ep
    | None => throw (system_error not_connected)
    end
  else throw (system_error bad_descriptor).

(** [socket_.connect(remote)], the throwing overload.  Asio first opens the
    socket when it is closed; [ec_open] and [ec] are what the operating system
    answers to the two calls.  After a connect that succeeded the socket
    reports what the operating system holds, not what was asked for:
    [os_peer] is the peer it then has (none when the connect left it without
    one, as a connect to port 0 does; the address the system chose when a
    wildcard was asked for) and [os_local] the local endpoint it then has.  A
    socket that was opened anew has the local endpoint the system gave it.  A
    failed connect leaves the peer as it was. *)
Definition socket_connect (remote : endpoint) (ec_open ec : error_code)
    (os_local : endpoint) (os_peer : option endpoint) : M unit :=
  w ← get;
  (if sock_is_open (socket_ w) then ret tt
   else if ec_failed ec_open then throw (system_error ec_open)
   else modify (with_socket (mk_socket true os_local None false [])));;
  if ec_failed ec then throw (system_error ec)
  else modify (λ w, with_socket
                 (mk_socket (sock_is_open (socket_ w)) os_local os_peer
                    (sock_reuse_address (socket_ w))
                    (sock_groups (socket_ w))) w).

Definition cancel_receive (r : receiver_pc) : receiver_pc :=
  match r with
  | R_await buf None => R_await buf (Some operation_aborted)
  | _ => r
  end.

Definition cancel_send (s : sender_pc) : sender_pc :=
  match s with
  | S_await p None => S_await p (Some operation_aborted)
  | _ => s
  end.

(** Releasing the descriptor cancels the operations outstanding on it. *)
Definition release_socket (w : World) : World :=
  with_socket
    (mk_socket false (sock_local (socket_ w)) None
       (sock_reuse_address (socket_ w)) (sock_groups (socket_ w)))
    (with_receivers (cancel_receive <$> receivers w)
       (with_senders (cancel_send <$> senders w) w)).

(** [socket_.close()], the throwing overload.  Nothing happens on a closed
    socket; otherwise the descriptor is gone even when the operating system
    reports an error [ec]. *)
Definition socket_close (ec : error_code) : M unit :=
  w ← get;
  if sock_is_open (socket_ w) then
    modify release_socket;;
    emit ev_socket_close;;
    if ec_failed ec then throw (system_error ec) else ret tt
  else ret tt.

(** [socket_.set_option(o, ec)]: returns the error code it stored in [ec]. *)
Definition socket_set_option (o : socket_option) (ec : error_code) : M error_code :=
  w ← get;
  if negb (sock_is_open (socket_ w)) then ret bad_descriptor
  else if ec_failed ec then ret ec
  else modify (λ w, with_socket (apply_option o (socket_ w)) w);; ret success.

(** Modelled from the spec: [sanhok/container/concurrent_queue.hpp] is not
    part of the sources.  The handoff queue is first-in first-out; [push]
    appends; [clear] drops every item and wakes a dispatch worker parked in
    [pop_wait], which then returns without an item; [pop_wait] (in
    [worker_step]) returns the front item or blocks on an empty queue. *)
Definition queue_push (b : buffer) : M unit :=
  modify (λ w, with_queue (receive_queue_ w ++ [b]) w);;
  emit (ev_queue_push b).

Definition wake (k : worker_pc) : worker_pc :=
  match k with W_wait => W_woken | _ => k end.

Definition queue_clear : M unit :=
  modify (λ w, with_queue [] (with_workers (wake <$> workers w) w));;
  emit ev_queue_clear.

Definition set_receiver (i : nat) (pc : receiver_pc) : M unit :=
  modify (λ w, with_receivers (<[i:=pc]> (receivers w)) w).
Definition set_sender (i : nat) (pc : sender_pc) : M unit :=
  modify (λ w, with_senders (<[i:=pc]> (senders w)) w).
Definition set_worker (i : nat) (pc : worker_pc) : M unit :=
  modify (λ w, with_workers (<[i:=pc]> (workers w)) w).

(** ** Member functions *)

(** The constructor binds the socket ([ec_bind] is the operating system's
    answer) and logs the bound endpoint; a bind failure leaves it as an
    exception and no object exists. *)
Definition constructed (local_endpoint : endpoint) (receive_buffer_size : nat) : World :=
  mk_world (mk_socket true local_endpoint None false []) false
    receive_buffer_size [] not_a_thread [] [] [] alive
    [ev_log (info_bound (ep_address local_endpoint) (ep_port local_endpoint))].

Definition ConnectionUDP (local_endpoint : endpoint) (receive_buffer_size : nat)
    (ec_bind : error_code) : Res World :=
  if ec_failed ec_bind then Throw (system_error ec_bind)
  else Ok (constructed local_endpoint receive_buffer_size).

Definition is_open : M bool := read_is_open.
Definition local_endpoint : M endpoint := socket_local_endpoint.
Definition remote_endpoint : M endpoint := socket_remote_endpoint.

Definition connect (remote : endpoint) (ec_open ec : error_code)
    (os_local : endpoint) (os_peer : option endpoint) : M unit :=
  try_catch (socket_connect remote ec_open ec os_local os_peer)
            (λ e, spdlog (error_connecting e));;
  a ← socket_remote_endpoint;
  p ← socket_remote_endpoint;
  spdlog (info_connected (ep_address a) (ep_port p)).

(** [worker_ = std::thread(...)]: move assignment onto a joinable handle ends
    the process. *)
Definition worker_start : M unit :=
  w ← get;
  if joinable (worker_ w) then terminate
  else
    let tid := length (workers w) in
    modify (λ w, with_worker (thread_of tid) (with_workers (workers w ++ [W_head]) w));;
    emit (ev_thread_start tid).

Definition worker_detach : M unit := modify (with_worker not_a_thread).

Definition co_spawn_receive : M unit :=
  modify (λ w, with_receivers (receivers w ++ [R_head]) w);;
  emit ev_co_spawn_receive.

Definition co_spawn_send (p : packet) : M unit :=
  modify (λ w, with_senders (senders w ++ [S_start p]) w);;
  emit (ev_co_spawn_send p).

Definition open : M unit :=
  old ← is_open_exchange true;
  if old then ret tt
  else
    co_spawn_receive;;
    worker_start;;
    worker_detach.

Definition close (ec_close : error_code) : M unit :=
  old ← is_open_exchange false;
  if negb old then ret tt
  else
    a ← local_endpoint;
    p ← local_endpoint;
    spdlog (info_close (ep_address a) (ep_port p));;
    queue_clear;;
    try_catch (socket_close ec_close) (λ e, spdlog (error_closing e)).

Definition send_packet (p : packet) : M unit :=
  o ← read_is_open;
  if negb o then ret tt
  else co_spawn_send p.

(** [a || b] on the two returned error codes: the second option is set only
    when the first succeeded, and [ec] holds the code of the last call made. *)
Definition join_multicast_group (address : ip_address) (ec1 ec2 : error_code) : M unit :=
  r1 ← socket_set_option (reuse_address true) ec1;
  ec ← (if ec_failed r1 then ret r1
        else socket_set_option (join_group address) ec2);
  if ec_failed ec then spdlog (error_joining ec) else ret tt.

Definition leave_multicast_group (address : ip_address) (ec1 : error_code) : M unit :=
  ec ← socket_set_option (leave_group address) ec1;
  if ec_failed ec then spdlog (error_leaving ec) else ret tt.

(** ** Coroutines and the dispatch thread *)

(** What [async_receive] leaves in the buffer: the datagram at the front (cut
    to the buffer's size), the rest of the buffer as allocated. *)
Definition fill (buf data : buffer) : buffer :=
  take (length buf) data ++ drop (length data) buf.

(** [receive_packet()] up to its [co_await]. *)
Definition receive_packet_begin (i : nat) : M unit :=
  o ← read_is_open;
  if negb o then ret tt
  else
    w ← get;
    let buf := replicate (receive_buffer_size_ w) Byte.x00 in
    emit (ev_async_receive (length buf));;
    set_receiver i
      (R_await buf (if sock_is_open (socket_ w) then None else Some bad_descriptor)).

(** [receive_packet()] from the completion of the receive on: [ec] is the
    completion's error code, [data] the datagram. *)
Definition receive_packet_resume (buf : buffer) (ec : error_code) (data : buffer)
    (ec_close : error_code) : M unit :=
  if ec_failed ec then
    spdlog (error_receiving ec);;
    close ec_close
  else
    queue_push (fill buf data).

Definition completion (forced : option error_code) (ec_os : error_code) : error_code :=
  match forced with Some e => e | None => ec_os end.

(** One scheduling of receive coroutine [i].  An exception leaving the
    coroutine is dropped by [boost::asio::detached] and ends it. *)
Definition receiver_step (i : nat) (ec_os : error_code) (data : buffer)
    (ec_close : error_code) : M unit :=
  w ← get;
  match receivers w !! i with
  | Some R_head =>
      if is_open_ w then receive_packet_begin i
      else set_receiver i R_done
  | Some (R_await buf forced) =>
      set_receiver i R_head;;
      try_catch (receive_packet_resume buf (completion forced ec_os) data ec_close)
                (λ _, set_receiver i R_done)
  | _ => ret tt
  end.

(** One scheduling of send coroutine [i]. *)
Definition sender_step (i : nat) (ec_os ec_close : error_code) : M unit :=
  w ← get;
  match senders w !! i with
  | Some (S_start p) =>
      emit (ev_async_send p);;
      set_sender i
        (S_await p (if sock_is_open (socket_ w) then None else Some bad_descriptor))
  | Some (S_await p forced) =>
      set_sender i S_done;;
      let ec := completion forced ec_os in
      if ec_failed ec then
        try_catch (spdlog (error_sending ec);; close ec_close) (λ _, ret tt)
      else ret tt
  | _ => ret tt
  end.

(** One scheduling of dispatch thread [i]:
    [while (is_open_) { auto packet = receive_queue_.pop_wait();
                        if (!packet) return; on_packet_(std::move( *packet)); }] *)
Definition worker_step (i : nat) : M unit :=
  w ← get;
  match workers w !! i with
  | Some W_head =>
      if is_open_ w then set_worker i W_wait else set_worker i W_done
  | Some W_wait =>
      match receive_queue_ w with
      | b :: q =>
          modify (with_queue q);;
          emit (ev_queue_pop b);;
          set_worker i (W_have b)
      | [] => ret tt
      end
  | Some W_woken => set_worker i W_done
  | Some (W_have b) =>
      emit (ev_on_packet b);;
      set_worker i W_head
  | _ => ret tt
  end.

(** ** The destructor

    [close(); if (worker_.joinable()) worker_.join();] and then the members go.
    The destructor is [noexcept]; [join()] blocks until the thread returned,
    so the second half is a step of its own that does nothing while it has to
    wait. *)
Definition dtor_close (ec_close : error_code) : M unit :=
  noexcept (close ec_close);;
  modify (with_life destructing).

Definition thread_returned (w : World) (tid : nat) : bool :=
  match workers w !! tid with
  | Some W_done => true
  | _ => false
  end.

Definition destroy_members : M unit :=
  try_catch (socket_close success) (λ _, ret tt);;
  emit ev_destroyed;;
  modify (with_life destroyed).

Definition dtor_join : M unit :=
  w ← get;
  match worker_ w with
  | thread_of tid =>
      if thread_returned w tid then
        emit (ev_thread_join tid);;
        modify (with_worker not_a_thread);;
        destroy_members
      else ret tt
  | not_a_thread => destroy_members
  end.

(** ** The scheduler *)

Inductive action :=
| call_connect (remote : endpoint) (ec_open ec : error_code)
    (os_local : endpoint) (os_peer : option endpoint)
| call_open
| call_close (ec_close : error_code)
| call_send_packet (p : packet)
| call_join_multicast_group (address : ip_address) (ec1 ec2 : error_code)
| call_leave_multicast_group (address : ip_address) (ec : error_code)
| run_dtor_close (ec_close : error_code)
| run_dtor_join
| run_receiver (i : nat) (ec_os : error_code) (data : buffer) (ec_close : error_code)
| run_sender (i : nat) (ec_os ec_close : error_code)
| run_worker (i : nat).

Definition exec (m : M unit) (w : World) : World :=
  match m w with
  | (Abort, w') => with_life terminated w'
  | (_, w') => w'
  end.

Definition on_alive (m : M unit) (w : World) : World :=
  match life w with alive => exec m w | _ => w end.

(** Member functions are called on a live object only; coroutines and the
    dispatch thread are run by the io_context and the operating system for as
    long as the process lives. *)
Definition step (w : World) (a : action) : World :=
  match life w with
  | terminated => w
  | _ =>
      match a with
      | call_connect remote ec_open ec os_local os_peer =>
          on_alive (connect remote ec_open ec os_local os_peer) w
      | call_open => on_alive open w
      | call_close ec_close => on_alive (close ec_close) w
      | call_send_packet p => on_alive (send_packet p) w
      | call_join_multicast_group a ec1 ec2 =>
          on_alive (join_multicast_group a ec1 ec2) w
      | call_leave_multicast_group a ec => on_alive (leave_multicast_group a ec) w
      | run_dtor_close ec_close => on_alive (dtor_close ec_close) w
      | run_dtor_join =>
          match life w with destructing => exec dtor_join w | _ => w end
      | run_receiver i ec_os data ec_close =>
          exec (receiver_step i ec_os data ec_close) w
      | run_sender i ec_os ec_close => exec (sender_step i ec_os ec_close) w
      | run_worker i => exec (worker_step i) w
      end
  end.

Definition run (w : World) (acts : list action) : World := foldl step w acts.

(** [close()] by cases: on a closed flag nothing happens; with the flag set
    and the socket held the whole teardown runs; with the flag set and the
    socket already gone the log line's [local_endpoint()] throws after the
    flag was cleared. *)
Definition torn_down (ec_close : error_code) (w : World) : World :=
  let logged :=
    ev_socket_close :: ev_queue_clear
      :: ev_log (info_close (ep_address (sock_local (socket_ w)))
                            (ep_port (sock_local (socket_ w))))
      :: ev_flag false :: trace w in
  mk_world
    (mk_socket false (sock_local (socket_ w)) None
       (sock_reuse_address (socket_ w)) (sock_groups (socket_ w)))
    false (receive_buffer_size_ w) [] (worker_ w)
    (cancel_receive <$> receivers w) (cancel_send <$> senders w)
    (wake <$> workers w) (life w)
    (if ec_failed ec_close
     then ev_log (error_closing (system_error ec_close)) :: logged
     else logged).


(** ** close() under concurrent callers

    For callers racing on [close()] the member function is cut at its accesses
    to shared state: the exchange on the flag, the log line, the clearing of
    the queue and the release of the socket.  A scheduler picks which caller
    runs its next block; caller [i] gets [ecs i] from the operating system
    when it releases the socket. *)
Inductive close_pc :=
| C_call
| C_log
| C_clear
| C_socket
| C_returned
| C_thrown (e : exn)
| C_aborted.

Definition advance (m : M unit) (next : close_pc) (w : World) : close_pc * World :=
  match m w with
  | (Ok _, w') => (next, w')
  | (Throw e, w') => (C_thrown e, w')
  | (Abort, w') => (C_aborted, w')
  end.

Definition close_thread_step (ec_close : error_code) (pc : close_pc) (w : World)
    : close_pc * World :=
  match pc with
  | C_call =>
      match is_open_exchange false w with
      | (Ok old, w') => (if negb old then C_returned else C_log, w')
      | (Throw e, w') => (C_thrown e, w')
      | (Abort, w') => (C_aborted, w')
      end
  | C_log =>
      advance (a ← local_endpoint;
               p ← local_endpoint;
               spdlog (info_close (ep_address a) (ep_port p))) C_clear w
  | C_clear => advance queue_clear C_socket w
  | C_socket =>
      advance (try_catch (socket_close ec_close) (λ e, spdlog (error_closing e)))
        C_returned w
  | _ => (pc, w)
  end.

Definition finished (pc : close_pc) : bool :=
  match pc with
  | C_returned | C_thrown _ | C_aborted => true
  | _ => false
  end.

Definition race_step (ecs : nat → error_code) (c : World * list close_pc) (i : nat)
    : World * list close_pc :=
  match c.2 !! i with
  | Some pc =>
      let r := close_thread_step (ecs i) pc c.1 in
      (r.2, <[i:=r.1]> c.2)
  | None => c
  end.

(** [n] callers enter [close()] on [w]; [sched] lists who runs next. *)
Definition race (ecs : nat → error_code) (w : World) (n : nat) (sched : list nat)
    : World * list close_pc :=
  foldl (race_step ecs) (w, replicate n C_call) sched.

(** One caller on its own, [k] blocks into [close()]. *)
Definition solo (ec_close : error_code) (w : World) (k : nat) : close_pc * World :=
  Nat.iter k (λ c, close_thread_step ec_close c.1 c.2) (C_call, w).

(** [close()] called once per element of [ecl], one call after the other. *)
Definition close_each (ecl : list error_code) (w : World) : World :=
  foldl (λ w ec, (close ec w).2) w ecl.

Definition count (f : event → bool) (t : list event) : nat :=
  length (List.filter f t).

Definition is_flag_flip (e : event) : bool :=
  match e with ev_flag _ => true | _ => false end.
Definition is_queue_clear (e : event) : bool :=
  match e with ev_queue_clear => true | _ => false end.
Definition is_socket_close (e : event) : bool :=
  match e with ev_socket_close => true | _ => false end.
Definition is_close_log (e : event) : bool :=
  match e with ev_log (info_close _ _) => true | _ => false end.

(** What holds of every configuration the race reaches from [w0]: either
    nobody has run yet, or exactly one caller [j] is [k] blocks into the
    teardown, the world is what that caller alone would have made of it, and
    every other caller is still to enter or has returned. *)
Definition race_inv (ecs : nat → error_code) (w0 : World) (n : nat)
    (c : World * list close_pc) : Prop :=
  length c.2 = n ∧
  ((c.1 = w0 ∧ Forall (eq C_call) c.2) ∨
   ∃ j k, (1 ≤ k ≤ 4)%nat ∧ c.2 !! j = Some (solo (ecs j) w0 k).1 ∧
          c.1 = (solo (ecs j) w0 k).2 ∧
          ∀ i pc, i ≠ j → c.2 !! i = Some pc → pc = C_call ∨ pc = C_returned).

(** How far a caller is into [close()]. *)
Definition rank (pc : close_pc) : nat :=
  match pc with
  | C_call => 0
  | C_log => 1
  | C_clear => 2
  | C_socket => 3
  | _ => 4
  end.

(** A schedule that lets each of the [n] callers run the four blocks of
    [close()]. *)
Definition fair (n : nat) (sched : list nat) : Prop :=
  ∀ i, (i < n)%nat → (4 ≤ count_occ Nat.eq_dec sched i)%nat.

(** The state of a connection on which [open()] was never called: the flag
    is clear, nothing was spawned, the queue is empty and, while the object
    lives, the socket is held. *)
Definition never_opened (w : World) : Prop :=
  is_open_ w = false ∧ receivers w = [] ∧ senders w = [] ∧ workers w = [] ∧
  receive_queue_ w = [] ∧ (life w = alive → sock_is_open (socket_ w) = true).

(** Every [connect()] of a history had its socket connect fail. *)
Definition connect_failing (a : action) : Prop :=
  match a with
  | call_connect _ _ ec _ _ => ec_failed ec = true
  | _ => True
  end.

(** ** Sample values *)

Definition localhost (port : N) : endpoint :=
  mk_endpoint (address_v4 2130706433) port.

Definition hello : buffer :=
  [Byte.x68; Byte.x65; Byte.x6c; Byte.x6c; Byte.x6f].

(** A connection bound to 127.0.0.1:9000 with an 8-byte receive buffer, and
    the same after [open()]. *)
Definition sample_closed : World := constructed (localhost 9000) 8.
Definition sample_open : World := run sample_closed [call_open].

(** ** Invariants of the reachable states *)

(** Every buffer a suspended receive holds is the one [receive_packet]
    allocated: [receive_buffer_size_] zero bytes. *)
Definition allocated (size : nat) (r : receiver_pc) : Prop :=
  match r with
  | R_await buf _ => buf = replicate size Byte.x00
  | _ => True
  end.

Definition buffers_allocated (size : nat) (w : World) : Prop :=
  receive_buffer_size_ w = size ∧ Forall (allocated size) (receivers w).

(** A suspended receive that may still complete with a datagram. *)
Definition live_receive (r : receiver_pc) : bool :=
  match r with R_await _ None => true | _ => false end.

(** An error a suspended receive is bound to complete with is an error. *)
Definition forced_fails (r : receiver_pc) : Prop :=
  match r with
  | R_await _ (Some e) => ec_failed e = true
  | _ => True
  end.

(** Once the flag is clear or the socket is gone, the queue is empty and no
    suspended receive can complete with a datagram; and the destructor has
    cleared the flag before it waits. *)
Definition quiet (w : World) : Prop :=
  (life w = destructing → is_open_ w = false) ∧
  Forall forced_fails (receivers w) ∧
  (sock_is_open (socket_ w) = false ∨ is_open_ w = false →
   receive_queue_ w = [] ∧ Forall (λ r, live_receive r = false) (receivers w)).

(** Events of the receive pipeline: a receive issued, a datagram entering or
    leaving the queue. *)
Definition pipeline_event (e : event) : bool :=
  match e with
  | ev_async_receive _ | ev_queue_push _ | ev_queue_pop _ => true
  | _ => false
  end.

(** The datagrams dispatch threads hold, popped but not yet handled. *)
Definition held (w : World) (b : buffer) : Prop :=
  ∃ k, workers w !! k = Some (W_have b).

(** What may still happen after the pipeline stopped in [w1]: no pipeline
    event, and the handler runs only on a datagram that was already held. *)
Definition after_stop (w1 : World) (e : event) : Prop :=
  pipeline_event e = false ∧ ∀ b, e = ev_on_packet b → held w1 b.

Definition stopped_since (w1 w2 : World) : Prop :=
  is_open_ w2 = false ∧ quiet w2 ∧ (∀ b, held w2 b → held w1 b) ∧
  ∃ new, trace w2 = new ++ trace w1 ∧ Forall (after_stop w1) new.

(** The state in which [receive_packet] of coroutine [i] calls [close()]
    after a failed receive: the coroutine is past its [co_await] and the
    error is logged. *)
Definition receive_failed (i : nat) (ec : error_code) (w : World) : World :=
  with_trace (ev_log (error_receiving ec) :: trace w)
    (with_receivers (<[i:=R_head]> (receivers w)) w).

(** The same for send coroutine [i]. *)
Definition send_failed (i : nat) (ec : error_code) (w : World) : World :=
  with_trace (ev_log (error_sending ec) :: trace w)
    (with_senders (<[i:=S_done]> (senders w)) w).

(** ** Counting what happened *)

Definition tally {A} (f : A → bool) (l : list A) : nat :=
  length (List.filter f l).

Definition is_opened (e : event) : bool :=
  match e with ev_flag true => true | _ => false end.
Definition is_closed (e : event) : bool :=
  match e with ev_flag false => true | _ => false end.
Definition is_spawn_receive (e : event) : bool :=
  match e with ev_co_spawn_receive => true | _ => false end.
Definition is_thread_start (e : event) : bool :=
  match e with ev_thread_start _ => true | _ => false end.
Definition is_thread_join (e : event) : bool :=
  match e with ev_thread_join _ => true | _ => false end.
Definition is_spawn_send (e : event) : bool :=
  match e with ev_co_spawn_send _ => true | _ => false end.
Definition is_async_send (e : event) : bool :=
  match e with ev_async_send _ => true | _ => false end.
Definition is_async_receive (e : event) : bool :=
  match e with ev_async_receive _ => true | _ => false end.
Definition is_push (e : event) : bool :=
  match e with ev_queue_push _ => true | _ => false end.
Definition is_pop (e : event) : bool :=
  match e with ev_queue_pop _ => true | _ => false end.
Definition is_on_packet (e : event) : bool :=
  match e with ev_on_packet _ => true | _ => false end.
Definition is_receive_error (e : event) : bool :=
  match e with ev_log (error_receiving _) => true | _ => false end.

(** Program counters: a receive outstanding, a send issued or over, a popped
    datagram in hand. *)
Definition awaiting (r : receiver_pc) : bool :=
  match r with R_await _ _ => true | _ => false end.
Definition started (s : sender_pc) : bool :=
  match s with S_start _ => false | _ => true end.
Definition holding (k : worker_pc) : bool :=
  match k with W_have _ => true | _ => false end.

(** The open flag against the history of its changes, and what [open()] and
    [close()] did at each change. *)
Definition lifecycle (w : World) : Prop :=
  count is_opened (trace w)
  = (count is_closed (trace w) + (if is_open_ w then 1 else 0))%nat ∧
  length (receivers w) = count is_opened (trace w) ∧
  length (workers w) = count is_opened (trace w) ∧
  count is_spawn_receive (trace w) = count is_opened (trace w) ∧
  count is_thread_start (trace w) = count is_opened (trace w) ∧
  count is_close_log (trace w) = count is_queue_clear (trace w) ∧
  (count is_queue_clear (trace w) ≤ count is_closed (trace w))%nat ∧
  worker_ w = not_a_thread.

(** What was issued against what came of it: receives, pops and sends. *)
Definition accounting (w : World) : Prop :=
  count is_async_receive (trace w)
  = (count is_push (trace w) + count is_receive_error (trace w)
     + tally awaiting (receivers w))%nat ∧
  count is_pop (trace w)
  = (count is_on_packet (trace w) + tally holding (workers w))%nat ∧
  count is_spawn_send (trace w) = length (senders w) ∧
  count is_async_send (trace w) = tally started (senders w).

(** A history without [connect()]. *)
Definition not_connect (a : action) : Prop :=
  match a with call_connect _ _ _ _ _ => False | _ => True end.

(** What may still happen once the socket was released in [w1]: nothing
    enters or leaves the queue, and the handler runs only on a datagram that
    was already held. *)
Definition after_release (w1 : World) (e : event) : Prop :=
  is_push e = false ∧ is_pop e = false ∧ ∀ b, e = ev_on_packet b → held w1 b.

Definition released_since (w1 w2 : World) : Prop :=
  sock_is_open (socket_ w2) = false ∧ quiet w2 ∧ (∀ b, held w2 b → held w1 b) ∧
  ∃ new, trace w2 = new ++ trace w1 ∧ Forall (after_release w1) new.

(** ** Sizes of the buffers in flight *)

Definition holds_sized (size : nat) (k : worker_pc) : Prop :=
  match k with W_have b => length b = size | _ => True end.

Definition event_sized (size : nat) (e : event) : Prop :=
  match e with
  | ev_queue_push b | ev_queue_pop b | ev_on_packet b => length b = size
  | ev_async_receive n => n = size
  | _ => True
  end.

Definition sized (size : nat) (w : World) : Prop :=
  buffers_allocated size w ∧
  Forall (λ b, length b = size) (receive_queue_ w) ∧
  Forall (holds_sized size) (workers w) ∧
  Forall (event_sized size) (trace w).

(** ** The packets handed to send_packet *)

(** [send_packet] gets through to its [co_spawn] when it is called on a live
    object with the flag set. *)
Definition accepts (w : World) : bool :=
  match life w with alive => is_open_ w | _ => false end.

(** The packets of the [send_packet] calls of a history that found the
    connection open, in the order of the calls. *)
Fixpoint accepted (w : World) (acts : list action) : list (list Byte.byte) :=
  match acts with
  | [] => []
  | a :: acts' =>
      match a with
      | call_send_packet p => if accepts w then [p] else []
      | _ => []
      end ++ accepted (step w a) acts'
  end.

(** The packets send coroutines were spawned for, and the packets sends were
    issued for on the socket, oldest first. *)
Fixpoint spawned (t : list event) : list (list Byte.byte) :=
  match t with
  | [] => []
  | e :: t' =>
      spawned t' ++ match e with ev_co_spawn_send p => [p] | _ => [] end
  end.

Fixpoint issued (t : list event) : list (list Byte.byte) :=
  match t with
  | [] => []
  | e :: t' =>
      issued t' ++ match e with ev_async_send p => [p] | _ => [] end
  end.

(** The packet a send coroutine holds is one of [l]. *)
Definition sends_from (l : list (list Byte.byte)) (s : sender_pc) : Prop :=
  match s with
  | S_start p | S_await p _ => p ∈ l
  | S_done => True
  end.

Definition sends_known (w : World) : Prop :=
  Forall (sends_from (spawned (trace w))) (senders w) ∧
  Forall (λ p, p ∈ spawned (trace w)) (issued (trace w)).
(** ** Basic facts about the member functions *)

Ltac unfold_prims :=
  unfold is_open, local_endpoint, remote_endpoint, read_is_open,
    is_open_exchange, socket_local_endpoint, socket_remote_endpoint,
    socket_connect, socket_close, socket_set_option, queue_push, queue_clear,
    set_receiver, set_sender, set_worker, worker_start, worker_detach,
    co_spawn_receive, co_spawn_send, spdlog, emit, noexcept, try_catch,
    terminate, throw, modify, get, bind, ret in *.

Ltac unfold_members :=
  unfold dtor_close, dtor_join, destroy_members, receive_packet_begin,
    receive_packet_resume, connect, open, send_packet, join_multicast_group,
    leave_multicast_group, close in *.

Lemma with_is_open_same w : with_is_open (is_open_ w) w = w.
Proof. by destruct w. Qed.

Lemma ec_failed_success : ec_failed success = false.
Proof. reflexivity. Qed.

Lemma close_closed ec w : is_open_ w = false → close ec w = (Ok tt, w).
Proof.
  intros H. unfold_members; unfold_prims. rewrite H. simpl.
  by rewrite <- H, with_is_open_same.
Qed.

Lemma close_open ec w :
  is_open_ w = true → sock_is_open (socket_ w) = true →
  close ec w = (Ok tt, torn_down ec w).
Proof.
  intros Ho Hs. unfold_members; unfold_prims. unfold torn_down.
  destruct w as [[so sl sr sa sg] o n q t rs ss ws l tr]; simpl in *; subst.
  simpl. by destruct (ec_failed ec).
Qed.

Lemma close_reopened ec w :
  is_open_ w = true → sock_is_open (socket_ w) = false →
  close ec w = (Throw (system_error bad_descriptor),
                with_trace (ev_flag false :: trace w) (with_is_open false w)).
Proof.
  intros Ho Hs. unfold_members; unfold_prims.
  destruct w as [[so sl sr sa sg] o n q t rs ss ws l tr]; simpl in *; subst.
  reflexivity.
Qed.

Lemma close_flag ec w : is_open_ (close ec w).2 = false.
Proof.
  destruct (is_open_ w) eqn:Ho.
  - destruct (sock_is_open (socket_ w)) eqn:Hs.
    + rewrite close_open by done. reflexivity.
    + rewrite close_reopened by done. reflexivity.
  - by rewrite close_closed.
Qed.

(** ** close(): one caller, block by block, is the member function *)

Section CloseRace.
Variable ecs : nat → error_code.
Variable w0 : World.
Hypothesis flag_set : is_open_ w0 = true.
Hypothesis socket_held : sock_is_open (socket_ w0) = true.

Lemma solo_stages ec :
  (solo ec w0 1).1 = C_log ∧ (solo ec w0 2).1 = C_clear ∧
  (solo ec w0 3).1 = C_socket ∧ solo ec w0 4 = (C_returned, torn_down ec w0).
Proof using flag_set socket_held.
  destruct w0 as [[so sl sr sa sg] o n q t rs ss ws l tr]; simpl in *; subst.
  unfold solo, torn_down; simpl. unfold advance; unfold_prims; simpl.
  repeat split. by destruct (ec_failed ec).
Qed.

Lemma solo_flag ec k : (1 ≤ k ≤ 4)%nat → is_open_ (solo ec w0 k).2 = false.
Proof using flag_set socket_held.
  intros Hk.
  destruct w0 as [[so sl sr sa sg] o n q t rs ss ws l tr]; simpl in *; subst.
  assert (k = 1 ∨ k = 2 ∨ k = 3 ∨ k = 4)%nat as [->|[->|[->| ->]]] by lia;
    unfold solo; simpl; unfold advance; unfold_prims; simpl; try done.
  by destruct (ec_failed ec).
Qed.

(** A caller that finds the flag already cleared returns at once and leaves
    everything as it was. *)
Lemma loser_step ec w :
  is_open_ w = false → close_thread_step ec C_call w = (C_returned, w).
Proof using Type.
  intros H. unfold close_thread_step; unfold_prims. rewrite H. simpl.
  by rewrite <- H, with_is_open_same.
Qed.

Lemma race_inv_init n : race_inv ecs w0 n (w0, replicate n C_call).
Proof using Type.
  split; simpl; [by rewrite length_replicate|left]. split; [done|].
  apply Forall_forall. intros x Hx. apply elem_of_replicate in Hx. by destruct Hx.
Qed.

Lemma solo_succ ec k :
  solo ec w0 (S k) = close_thread_step ec (solo ec w0 k).1 (solo ec w0 k).2.
Proof using Type. reflexivity. Qed.

Lemma race_inv_step n c i :
  race_inv ecs w0 n c → race_inv ecs w0 n (race_step ecs c i).
Proof using flag_set socket_held.
  intros [Hlen Hc]. unfold race_step.
  destruct (c.2 !! i) as [pc|] eqn:Hi; [|by split].
  assert (i < length c.2)%nat as Hlt by by eapply lookup_lt_Some.
  split; simpl; [by rewrite length_insert|].
  destruct Hc as [[Hw Hall]|(j & k & Hk & Hj & Hw & Hothers)].
  - (* the first caller to run wins the exchange *)
    right. exists i, 1%nat.
    assert (pc = C_call) as ->.
    { symmetry. eapply Forall_lookup_1 in Hall; eauto. }
    rewrite Hw. split; [lia|]. split; [|split].
    + by rewrite list_lookup_insert_eq.
    + done.
    + intros i' pc' Hne Hl. rewrite list_lookup_insert_ne in Hl by done.
      left. symmetry. eapply Forall_lookup_1 in Hall; eauto.
  - right. destruct (decide (i = j)) as [->|Hne].
    + (* the winner runs its next block *)
      rewrite Hi in Hj. injection Hj as ->. rewrite Hw.
      exists j, (if decide (k = 4%nat) then 4%nat else S k).
      destruct (decide (k = 4%nat)) as [->|Hk4].
      * destruct (solo_stages (ecs j)) as (_ & _ & _ & H4).
        rewrite H4. simpl. split; [lia|]. split; [|split; [done|]].
        -- by rewrite list_lookup_insert_eq.
        -- intros i' pc' Hne' Hl. rewrite list_lookup_insert_ne in Hl by done.
           eauto.
      * rewrite <- solo_succ. split; [lia|]. split; [|split; [done|]].
        -- by rewrite list_lookup_insert_eq.
        -- intros i' pc' Hne' Hl. rewrite list_lookup_insert_ne in Hl by done.
           eauto.
    + (* another caller runs: it finds the flag cleared *)
      exists j, k. pose proof (Hothers i pc Hne Hi) as Hpc.
      assert (close_thread_step (ecs i) pc c.1 = (C_returned, c.1)) as ->.
      { destruct Hpc as [->| ->]; [|done].
        rewrite loser_step; [done|]. rewrite Hw. by apply solo_flag. }
      simpl. split; [done|]. split; [|split; [done|]].
      * by rewrite list_lookup_insert_ne.
      * intros i' pc' Hne' Hl.
        destruct (decide (i' = i)) as [->|Hii].
        -- rewrite list_lookup_insert_eq in Hl by done.
           injection Hl as <-. eauto.
        -- rewrite list_lookup_insert_ne in Hl by done. eauto.
Qed.

Lemma race_inv_run n sched : race_inv ecs w0 n (race ecs w0 n sched).
Proof using flag_set socket_held.
  unfold race. generalize (race_inv_init n).
  generalize (w0, replicate n C_call). induction sched as [|i sched IH]; simpl.
  - done.
  - intros c Hc. apply IH. by apply race_inv_step.
Qed.

End CloseRace.

(** ** close(): every caller gets through *)

Lemma close_thread_step_rank ec pc w :
  (Nat.min 4 (S (rank pc)) ≤ rank (close_thread_step ec pc w).1)%nat.
Proof.
  destruct pc; simpl; unfold advance; unfold_prims; simpl;
    repeat case_match; simplify_eq/=; lia.
Qed.

Lemma race_step_length ecs c i : length (race_step ecs c i).2 = length c.2.
Proof.
  unfold race_step. destruct (c.2 !! i); simpl; [|done]. by rewrite length_insert.
Qed.

Lemma race_step_rank ecs c i pc :
  c.2 !! i = Some pc →
  ∃ pc', (race_step ecs c i).2 !! i = Some pc' ∧ (Nat.min 4 (S (rank pc)) ≤ rank pc')%nat.
Proof.
  intros Hi. unfold race_step. rewrite Hi. simpl. eexists. split.
  - apply list_lookup_insert_eq. by eapply lookup_lt_Some.
  - apply close_thread_step_rank.
Qed.

Lemma race_step_other ecs c i j : i ≠ j → (race_step ecs c i).2 !! j = c.2 !! j.
Proof.
  intros Hne. unfold race_step. destruct (c.2 !! i); simpl; [|done].
  by rewrite list_lookup_insert_ne.
Qed.

Lemma race_progress ecs sched : ∀ c i pc,
  c.2 !! i = Some pc →
  ∃ pc', (foldl (race_step ecs) c sched).2 !! i = Some pc' ∧
         (Nat.min 4 (rank pc + count_occ Nat.eq_dec sched i) ≤ rank pc')%nat.
Proof.
  induction sched as [|a sched IH]; intros c i pc Hi; cbn [foldl].
  - exists pc. split; [done|]. cbn [count_occ]. lia.
  - destruct (Nat.eq_dec a i) as [->|Hne].
    + destruct (race_step_rank ecs c i pc Hi) as (pc1 & H1 & Hr1).
      destruct (IH _ _ _ H1) as (pc' & H' & Hr'). exists pc'. split; [done|].
      rewrite count_occ_cons_eq by done. lia.
    + assert ((race_step ecs c a).2 !! i = Some pc) as H1
        by by rewrite race_step_other.
      destruct (IH _ _ _ H1) as (pc' & H' & Hr'). exists pc'. split; [done|].
      rewrite count_occ_cons_neq by done. lia.
Qed.

Lemma rank_finished pc : (4 ≤ rank pc)%nat → finished pc = true.
Proof. destruct pc; simpl; (done || lia). Qed.

Lemma race_fair_finishes ecs w n sched :
  fair n sched → Forall (λ pc, finished pc = true) (race ecs w n sched).2.
Proof.
  intros Hfair. apply Forall_lookup. intros i pc Hi.
  assert (i < n)%nat as Hlt.
  { apply lookup_lt_Some in Hi. revert Hi. unfold race.
    assert (∀ c, length (foldl (race_step ecs) c sched).2 = length c.2) as Hlen.
    { clear. induction sched as [|a s IH]; intros c; simpl; [done|].
      by rewrite IH, race_step_length. }
    rewrite Hlen. simpl. by rewrite length_replicate. }
  destruct (race_progress ecs sched (w, replicate n C_call) i C_call)
    as (pc' & H' & Hr).
  { simpl. by apply lookup_replicate_2. }
  unfold race in Hi. rewrite Hi in H'. injection H' as <-.
  apply rank_finished. specialize (Hfair i Hlt). cbn [rank] in Hr. lia.
Qed.

(** ** close(): exactly one teardown *)

Lemma torn_down_events ec w :
  ∃ new, trace (torn_down ec w) = new ++ trace w ∧
         count is_flag_flip new = 1%nat ∧ count is_queue_clear new = 1%nat ∧
         count is_socket_close new = 1%nat ∧ count is_close_log new = 1%nat.
Proof.
  unfold torn_down; simpl. destruct (ec_failed ec).
  - eexists [_; _; _; _; _]. split; [reflexivity|]. by repeat split.
  - eexists [_; _; _; _]. split; [reflexivity|]. by repeat split.
Qed.

Lemma close_each_closed ecl w : is_open_ w = false → close_each ecl w = w.
Proof.
  induction ecl as [|ec ecl IH]; intros H; [done|].
  unfold close_each in *. simpl. rewrite close_closed by done. simpl. by apply IH.
Qed.

Lemma race_finished_result ecs w n sched :
  (1 ≤ n)%nat → is_open_ w = true → sock_is_open (socket_ w) = true →
  Forall (λ pc, finished pc = true) (race ecs w n sched).2 →
  ∃ j, (j < n)%nat ∧ race ecs w n sched = (torn_down (ecs j) w, replicate n C_returned).
Proof.
  intros Hn Ho Hs Hfin.
  destruct (race_inv_run ecs w Ho Hs n sched) as [Hlen Hinv].
  destruct (race ecs w n sched) as [w' pcs] eqn:Hr. simpl in *.
  destruct Hinv as [[_ Hall]|(j & k & Hk & Hj & Hw & Hothers)].
  - (* nobody ran: impossible once a caller has finished *)
    destruct pcs as [|pc pcs]; simpl in *; [lia|].
    apply Forall_cons in Hall as [<- _]. by apply Forall_cons in Hfin as [? _].
  - destruct (solo_stages w Ho Hs (ecs j)) as (H1 & H2 & H3 & H4).
    assert (k = 4)%nat as ->.
    { eapply Forall_lookup_1 in Hfin; eauto.
      assert (k = 1 ∨ k = 2 ∨ k = 3 ∨ k = 4)%nat as [->|[->|[->| ->]]] by lia;
        try done; [rewrite H1 in Hfin|rewrite H2 in Hfin|rewrite H3 in Hfin];
        discriminate Hfin. }
    rewrite H4 in Hj, Hw. clear H1 H2 H3 H4. cbn [fst snd] in *. exists j.
    split; [apply lookup_lt_Some in Hj; lia|]. subst w'. f_equal.
    apply list_eq_same_length with n; [by rewrite length_replicate|done|].
    intros i x y Hi Hx Hy. apply lookup_replicate in Hy as [-> _].
    destruct (decide (i = j)) as [->|Hne]; [congruence|].
    destruct (Hothers i x Hne Hx) as [->| ->]; [|done].
    eapply Forall_lookup_1 in Hfin; eauto. done.
Qed.


(** ** Runs of the scheduler *)

Lemma run_app w acts1 acts2 : run w (acts1 ++ acts2) = run (run w acts1) acts2.
Proof. apply foldl_app. Qed.

Lemma run_snoc w acts a : run w (acts ++ [a]) = step (run w acts) a.
Proof. by rewrite run_app. Qed.

(** A property kept by every step allowed by [ok] is kept by every run made
    of such steps. *)
Lemma run_invariant (P : World → Prop) (ok : action → Prop) :
  (∀ w a, ok a → P w → P (step w a)) →
  ∀ acts w, Forall ok acts → P w → P (run w acts).
Proof.
  intros Hstep acts. induction acts as [|a acts IH]; intros w Hok Hw; [done|].
  apply Forall_cons in Hok as [Ha Hok]. simpl. apply IH; [done|]. by apply Hstep.
Qed.

Lemma run_invariant_all (P : World → Prop) :
  (∀ w a, P w → P (step w a)) → ∀ acts w, P w → P (run w acts).
Proof.
  intros Hstep acts w Hw.
  apply (run_invariant P (λ _, True)); auto. by apply Forall_true.
Qed.

Ltac unfold_steps :=
  unfold step, on_alive, exec, receiver_step, sender_step, worker_step in *.

Ltac world w :=
  destruct w as [[?so ?sl ?sr ?sa ?sg] ?o ?n ?q ?t ?rs ?ss ?ws ?l ?tr].

Ltac crush :=
  unfold_steps; unfold_members; unfold_prims; simpl in *;
  repeat (case_match; simplify_eq/=); try done.

(** ** A connection that was never opened *)

Lemma never_opened_step w a :
  a ≠ call_open → never_opened w → never_opened (step w a).
Proof.
  intros Ha (Ho & Hr & Hs & Hk & Hq & Hl). world w; simpl in *; subst.
  destruct a; try done; unfold never_opened; crush.
Qed.

Lemma never_opened_constructed le size : never_opened (constructed le size).
Proof. by repeat split. Qed.

Lemma never_opened_run le size acts :
  call_open ∉ acts → never_opened (run (constructed le size) acts).
Proof.
  intros Hno.
  apply (run_invariant never_opened (λ a, a ≠ call_open)).
  - intros w a. apply never_opened_step.
  - apply Forall_forall. intros a Ha ->. by apply Hno.
  - apply never_opened_constructed.
Qed.

(** C10: on a connection that was never opened, [close()] returns normally
    and leaves the whole state as it was (flag, socket, queue, log), and
    [is_open()] answers false; while the object lives its socket is still
    held afterwards. *)
Theorem close_never_opened (le : endpoint) (size : nat) (acts : list action)
    (ec : error_code) :
  call_open ∉ acts →
  let w := run (constructed le size) acts in
  close ec w = (Ok tt, w) ∧ is_open w = (Ok false, w) ∧
  is_open_ (close ec w).2 = false ∧ receive_queue_ (close ec w).2 = receive_queue_ w ∧
  trace (close ec w).2 = trace w ∧
  (life w = alive → sock_is_open (socket_ (close ec w).2) = true).
Proof.
  intros Hno w. destruct (never_opened_run le size acts Hno) as (Ho & _ & _ & _ & _ & Hs).
  fold w in Ho, Hs. rewrite (close_closed ec w Ho). simpl.
  repeat split; try done. unfold is_open, read_is_open, bind, get, ret. by rewrite Ho.
Qed.

Lemma close_never_opened_witness :
  close 0 (run sample_closed [call_send_packet hello; call_close 0])
  = (Ok tt, run sample_closed [call_send_packet hello; call_close 0]).
Proof.
  refine (proj1 (close_never_opened (localhost 9000) 8
                   [call_send_packet hello; call_close 0] 0 _)).
  intros H. repeat (apply elem_of_cons in H as [H|H]; [discriminate H|]).
  by apply elem_of_nil in H.
Defined.

(** ** send_packet on a closed connection *)

(** C7: while the connection is not open, [send_packet] returns normally and
    leaves the whole state as it was: no coroutine is spawned, so no send is
    scheduled and nothing holds the packet, and nothing is logged. *)
Theorem send_packet_closed_noop (w : World) (p : packet) :
  is_open_ w = false →
  send_packet p w = (Ok tt, w) ∧ senders (send_packet p w).2 = senders w ∧
  trace (send_packet p w).2 = trace w.
Proof.
  intros H. assert (send_packet p w = (Ok tt, w)) as ->; [|done].
  unfold send_packet; unfold_prims. by rewrite H.
Qed.

(** Before [open()] and after [close()]. *)
Lemma send_packet_closed_noop_witness :
  send_packet hello sample_closed = (Ok tt, sample_closed) ∧
  send_packet hello (run sample_open [call_close 0])
  = (Ok tt, run sample_open [call_close 0]).
Proof.
  split.
  - exact (proj1 (send_packet_closed_noop sample_closed hello eq_refl)).
  - exact (proj1 (send_packet_closed_noop (run sample_open [call_close 0]) hello
                    eq_refl)).
Defined.

(** ** connect *)

(** C3 (what the code does): when the socket connect fails on a socket that
    has no peer, the error is logged and then the log line that follows the
    [catch] asks the socket for its remote endpoint, which throws
    [not_connected]; that exception leaves [connect].  The object itself is
    as before, but for the log. *)
Theorem connect_failure_escapes (w : World) (remote : endpoint)
    (ec_open ec : error_code) (os_local : endpoint) (os_peer : option endpoint) :
  sock_is_open (socket_ w) = true → sock_remote (socket_ w) = None →
  ec_failed ec = true →
  connect remote ec_open ec os_local os_peer w
  = (Throw (system_error not_connected),
     with_trace (ev_log (error_connecting (system_error ec)) :: trace w) w).
Proof.
  intros Hs Hr Hec. world w; simpl in *; subst.
  unfold connect; unfold_prims; simpl. by rewrite Hec.
Qed.

Lemma connect_failure_escapes_witness :
  connect (localhost 9001) 0 22 (localhost 9000) None sample_closed
  = (Throw (system_error not_connected),
     with_trace (ev_log (error_connecting (system_error 22)) :: trace sample_closed)
       sample_closed).
Proof.
  exact (connect_failure_escapes sample_closed (localhost 9001) 0 22
           (localhost 9000) None eq_refl eq_refl eq_refl).
Defined.

(** ** remote_endpoint *)

Lemma no_peer_step w a :
  connect_failing a → sock_remote (socket_ w) = None →
  sock_remote (socket_ (step w a)) = None.
Proof.
  intros Ha Hr. world w; simpl in *; subst.
  destruct a; simpl in Ha; crush.
Qed.

(** C9: as long as no [connect()] has succeeded, [remote_endpoint()] throws
    (and changes nothing): [not_connected] while the socket is held,
    [bad_descriptor] once it was released. *)
Theorem remote_endpoint_unconnected_throws (le : endpoint) (size : nat)
    (acts : list action) :
  Forall connect_failing acts →
  let w := run (constructed le size) acts in
  remote_endpoint w
  = (Throw (system_error (if sock_is_open (socket_ w) then not_connected
                          else bad_descriptor)), w).
Proof.
  intros Hacts w.
  assert (sock_remote (socket_ w) = None) as Hr.
  { apply (run_invariant (λ w, sock_remote (socket_ w) = None) connect_failing);
      [intros ??; apply no_peer_step|done|done]. }
  unfold remote_endpoint; unfold_prims. rewrite Hr. by destruct (sock_is_open _).
Qed.

Lemma remote_endpoint_unconnected_throws_witness :
  let w := run (constructed (localhost 9000) 8)
             [call_connect (localhost 9001) 0 22 (localhost 9000) None;
              call_open] in
  remote_endpoint w
  = (Throw (system_error (if sock_is_open (socket_ w) then not_connected
                          else bad_descriptor)), w).
Proof.
  apply remote_endpoint_unconnected_throws. repeat constructor.
Defined.

(** ** The receive buffers *)

Lemma allocated_cancel size rs :
  Forall (allocated size) rs → Forall (allocated size) (cancel_receive <$> rs).
Proof.
  intros H. apply Forall_fmap. eapply Forall_impl; [exact H|].
  intros [|buf [e|]|]; simpl; done.
Qed.

Lemma buffers_allocated_step size w a :
  buffers_allocated size w → buffers_allocated size (step w a).
Proof.
  intros [Hn Hrs]. world w; simpl in *; subst. unfold buffers_allocated.
  destruct a; crush; split; try done;
    repeat first [ done | apply Forall_insert | apply allocated_cancel
                 | apply Forall_app_2 | apply Forall_cons_2 | apply Forall_nil_2 ].
Qed.

Lemma buffers_allocated_run le size acts :
  buffers_allocated size (run (constructed le size) acts).
Proof.
  apply run_invariant_all; [intros ??; apply buffers_allocated_step|].
  split; [done|]. apply Forall_nil_2.
Qed.

Lemma fill_allocated size data :
  fill (replicate size Byte.x00) data
  = take size data ++ replicate (size - length data) Byte.x00.
Proof. unfold fill. by rewrite length_replicate, drop_replicate. Qed.

Lemma receiver_step_success w i buf f ec_os data ec_close :
  receivers w !! i = Some (R_await buf f) →
  ec_failed (completion f ec_os) = false →
  receiver_step i ec_os data ec_close w
  = (Ok tt,
     with_trace (ev_queue_push (fill buf data) :: trace w)
       (with_queue (receive_queue_ w ++ [fill buf data])
          (with_receivers (<[i:=R_head]> (receivers w)) w))).
Proof.
  intros Hi Hec. unfold receiver_step, receive_packet_resume; unfold_prims.
  rewrite Hi, Hec. by destruct w.
Qed.

(** C1 (as the code has it): when a receive completes with a datagram, the
    buffer pushed onto the queue is the whole receive buffer, of the
    configured size whatever the datagram's length: the datagram (cut to the
    buffer's size) followed by the zero bytes the buffer was allocated
    with. *)
Theorem pushed_buffer_has_allocated_size (le : endpoint) (size : nat)
    (acts : list action) (i : nat) (buf : buffer) (f : option error_code)
    (ec_os : error_code) (data : buffer) (ec_close : error_code) :
  let w := run (constructed le size) acts in
  life w ≠ terminated →
  receivers w !! i = Some (R_await buf f) →
  ec_failed (completion f ec_os) = false →
  let b := take size data ++ replicate (size - length data) Byte.x00 in
  let w' := step w (run_receiver i ec_os data ec_close) in
  receive_queue_ w' = receive_queue_ w ++ [b] ∧
  trace w' = ev_queue_push b :: trace w ∧
  length b = size.
Proof.
  intros w Hl Hi Hec b w'.
  destruct (buffers_allocated_run le size acts) as [_ Hall]. fold w in Hall.
  assert (buf = replicate size Byte.x00) as ->.
  { eapply Forall_lookup_1 in Hall; eauto. done. }
  assert (w' = with_trace (ev_queue_push b :: trace w)
                 (with_queue (receive_queue_ w ++ [b])
                    (with_receivers (<[i:=R_head]> (receivers w)) w))) as ->.
  { unfold w', step, exec. rewrite receiver_step_success with (buf := replicate size Byte.x00) (f := f) by done.
    rewrite fill_allocated. fold b. by destruct (life w). }
  repeat split. unfold b. rewrite length_app, length_take, length_replicate. lia.
Qed.

Lemma pushed_buffer_has_allocated_size_witness :
  let w := run (constructed (localhost 9000) 8) [call_open; run_receiver 0 0 [] 0] in
  let b := take 8 hello ++ replicate (8 - length hello) Byte.x00 in
  let w' := step w (run_receiver 0 0 hello 0) in
  receive_queue_ w' = receive_queue_ w ++ [b] ∧
  trace w' = ev_queue_push b :: trace w ∧
  length b = 8%nat.
Proof.
  apply (pushed_buffer_has_allocated_size (localhost 9000) 8
           [call_open; run_receiver 0 0 [] 0] 0 (replicate 8 Byte.x00) None 0 hello 0).
  - vm_compute. discriminate.
  - vm_compute. reflexivity.
  - vm_compute. reflexivity.
Defined.

(** C1 as stated fails: with an 8-byte receive buffer, a 5-byte datagram
    received on the open connection is pushed as 8 bytes. *)
Lemma pushed_buffer_not_trimmed :
  let w := run sample_open [run_receiver 0 0 [] 0] in
  let w' := step w (run_receiver 0 0 hello 0) in
  is_open_ w = true ∧
  trace w' = ev_queue_push (hello ++ replicate 3 Byte.x00) :: trace w ∧
  ¬ (∀ b, b ∈ receive_queue_ w' → length b = length hello).
Proof.
  split; [vm_compute; reflexivity|]. split; [vm_compute; reflexivity|].
  intros H. specialize (H (hello ++ replicate 3 Byte.x00)).
  assert (receive_queue_ (step (run sample_open [run_receiver 0 0 [] 0])
                            (run_receiver 0 0 hello 0))
          = [hello ++ replicate 3 Byte.x00]) as Hq by (vm_compute; reflexivity).
  rewrite Hq in H. specialize (H (list_elem_of_here _ _)).
  vm_compute in H. discriminate H.
Qed.

(** ** The pipeline is quiet once the connection is closed *)

Lemma live_receive_cancel rs :
  Forall (λ r, live_receive r = false) (cancel_receive <$> rs).
Proof.
  apply Forall_fmap, Forall_forall. intros [|buf [e|]|] _; done.
Qed.

Lemma forced_fails_cancel rs :
  Forall forced_fails rs → Forall forced_fails (cancel_receive <$> rs).
Proof.
  intros H. apply Forall_fmap. eapply Forall_impl; [exact H|].
  intros [|buf [e|]|]; simpl; done.
Qed.

(** A suspended receive that is bound to fail does not complete with a
    datagram. *)
Lemma settled_fails rs i buf f ec_os :
  Forall forced_fails rs → Forall (λ r, live_receive r = false) rs →
  rs !! i = Some (R_await buf f) → ec_failed (completion f ec_os) = false → False.
Proof.
  intros Hf Hl Hi Hc.
  eapply Forall_lookup_1 in Hf; eauto. eapply Forall_lookup_1 in Hl; eauto.
  destruct f as [e|]; simpl in *; congruence.
Qed.

Ltac solve_pcs :=
  repeat first
    [ done
    | apply live_receive_cancel
    | apply forced_fails_cancel
    | apply Forall_insert
    | apply Forall_app_2
    | apply Forall_cons_2
    | apply Forall_nil_2
    | by (exfalso; eapply settled_fails; eauto) ].

Lemma quiet_step w a : quiet w → quiet (step w a).
Proof.
  unfold quiet. intros (Hd & Hf & H). world w; simpl in *.
  assert ((so = true ∧ o = true) ∨
          (q = [] ∧ Forall (λ r, live_receive r = false) rs)) as Hcase.
  { destruct so, o; auto. }
  clear H. destruct Hcase as [[-> ->] | [-> Hr]].
  - destruct a; crush; try (by specialize (Hd eq_refl));
      (split; [try done|]); (split; [solve_pcs|]); try (by intros [?|?]);
      intros _; split; solve_pcs.
  - destruct a; crush; try (by specialize (Hd eq_refl));
      (split; [try done|]); (split; [solve_pcs|]); try (by intros [?|?]);
      intros _; split; solve_pcs.
Qed.

Lemma quiet_run le size acts : quiet (run (constructed le size) acts).
Proof.
  apply run_invariant_all; [intros ??; apply quiet_step|].
  split; [done|]. split; [apply Forall_nil_2|]. intros _. split; [done|].
  apply Forall_nil_2.
Qed.

(** ** After the pipeline has stopped *)

Lemma extends_nil (P : event → Prop) tr :
  ∃ new, tr = new ++ tr ∧ Forall P new.
Proof. exists []. split; [done|]. apply Forall_nil_2. Qed.

Lemma extends_cons (P : event → Prop) tr t e :
  P e → (∃ new, t = new ++ tr ∧ Forall P new) →
  ∃ new, e :: t = new ++ tr ∧ Forall P new.
Proof.
  intros He (new & -> & Hnew). exists (e :: new). split; [done|].
  by apply Forall_cons_2.
Qed.

Lemma held_insert (ws : list worker_pc) (i : nat) pc b :
  (∀ b', pc ≠ W_have b') → (∃ k, <[i:=pc]> ws !! k = Some (W_have b)) →
  ∃ k, ws !! k = Some (W_have b).
Proof.
  intros Hpc [k Hk]. destruct (decide (k = i)) as [->|Hne].
  - destruct (decide (i < length ws)%nat).
    + rewrite list_lookup_insert_eq in Hk by done. injection Hk as ->.
      by destruct (Hpc b).
    + rewrite list_insert_ge in Hk by lia. eauto.
  - rewrite list_lookup_insert_ne in Hk by done. eauto.
Qed.

Lemma stopped_flag w a :
  a ≠ call_open → is_open_ w = false → is_open_ (step w a) = false.
Proof.
  intros Ha Ho. world w; simpl in *; subst. destruct a; crush.
Qed.

Lemma stopped_held w a b :
  a ≠ call_open → is_open_ w = false → quiet w →
  held (step w a) b → held w b.
Proof.
  intros Ha Ho (_ & _ & Hq). destruct Hq as [Hq _]; [by right|].
  unfold held. world w; simpl in *; subst.
  destruct a; crush; intros Hh; try done;
    try (eapply held_insert; [|exact Hh]; done).
  all: destruct Hh as [k Hk]; rewrite list_lookup_fmap in Hk;
    destruct (ws !! k) as [[]|] eqn:Hw; simplify_eq/=; eauto.
Qed.

Lemma stopped_trace w a :
  a ≠ call_open → is_open_ w = false → quiet w →
  ∃ new, trace (step w a) = new ++ trace w ∧
         Forall (λ e, pipeline_event e = false ∧ ∀ b, e = ev_on_packet b → held w b) new.
Proof.
  intros Ha Ho (_ & Hf & Hq). destruct Hq as [Hq Hr]; [by right|].
  unfold held. world w; simpl in *; subst.
  destruct a; crush;
    try (match goal with
         | H : ec_failed (completion _ _) = false |- _ =>
             exfalso; eapply settled_fails; [exact Hf|exact Hr|eassumption|exact H]
         end);
    repeat (apply extends_cons;
            [split; [done|]; intros b' Hb; simplify_eq; eauto|]);
    apply extends_nil.
Qed.

Lemma stopped_since_refl w : is_open_ w = false → quiet w → stopped_since w w.
Proof.
  intros Ho Hq. split; [done|]. split; [done|]. split; [done|].
  exists []. split; [done|]. apply Forall_nil_2.
Qed.

Lemma stopped_since_step w1 w a :
  a ≠ call_open → stopped_since w1 w → stopped_since w1 (step w a).
Proof.
  intros Ha (Ho & Hq & Hh & new & Ht & Hnew).
  split; [by apply stopped_flag|]. split; [by apply quiet_step|].
  split; [intros b Hb; apply Hh; by eapply stopped_held|].
  destruct (stopped_trace w a Ha Ho Hq) as (new' & Ht' & Hnew').
  exists (new' ++ new). split; [by rewrite Ht', Ht, app_assoc|].
  apply Forall_app_2; [|done].
  eapply Forall_impl; [exact Hnew'|]. intros e [He1 He2]. split; [done|].
  intros b ->. apply Hh. by apply He2.
Qed.

Lemma stopped_since_run w1 acts :
  call_open ∉ acts → is_open_ w1 = false → quiet w1 →
  stopped_since w1 (run w1 acts).
Proof.
  intros Hno Ho Hq.
  apply (run_invariant (stopped_since w1) (λ a, a ≠ call_open)).
  - intros w a. apply stopped_since_step.
  - apply Forall_forall. intros a Ha ->. by apply Hno.
  - by apply stopped_since_refl.
Qed.

(** ** A receive that fails *)

(** What [receive_packet] does when its receive fails: log the error and
    call [close()]; the step's result is the result of that call, up to the
    program counters of the coroutines. *)
Lemma receiver_step_failure w i buf f ec_os data ec_close :
  life w ≠ terminated →
  receivers w !! i = Some (R_await buf f) →
  ec_failed (completion f ec_os) = true →
  let w1 := step w (run_receiver i ec_os data ec_close) in
  w1 = with_receivers (receivers w1)
         (close ec_close (receive_failed i (completion f ec_os) w)).2.
Proof.
  intros Hl Hi Hec. unfold receive_failed. world w; simpl in *.
  destruct l; try done; unfold_steps; unfold_members; unfold_prims; simpl;
    rewrite !Hi; simpl; rewrite !Hec; simpl;
    destruct o, so; simpl; try destruct (ec_failed ec_close); reflexivity.
Qed.

Lemma close_trace ec w : ∃ new, trace (close ec w).2 = new ++ trace w.
Proof.
  destruct (is_open_ w) eqn:Ho; [destruct (sock_is_open (socket_ w)) eqn:Hs|].
  - rewrite close_open by done. unfold torn_down; simpl.
    destruct (ec_failed ec); [by eexists [_; _; _; _; _]|by eexists [_; _; _; _]].
  - rewrite close_reopened by done. by eexists [_].
  - rewrite close_closed by done. by exists [].
Qed.

(** C5: when a receive completes with failure, [receive_packet] logs the
    error and calls [close()], so that [is_open()] is false; and for as long
    as [open()] is not called again, the flag stays clear, no receive is
    issued, no datagram enters or leaves the queue, and the handler runs on
    nothing but a datagram a dispatch thread had already taken from the
    queue. *)
Theorem receive_failure_closes (le : endpoint) (size : nat) (acts : list action)
    (i : nat) (buf : buffer) (f : option error_code) (ec_os : error_code)
    (data : buffer) (ec_close : error_code) (acts' : list action) :
  let w := run (constructed le size) acts in
  life w ≠ terminated →
  receivers w !! i = Some (R_await buf f) →
  ec_failed (completion f ec_os) = true →
  call_open ∉ acts' →
  let ec := completion f ec_os in
  let w1 := step w (run_receiver i ec_os data ec_close) in
  let w2 := run w1 acts' in
  w1 = with_receivers (receivers w1) (close ec_close (receive_failed i ec w)).2 ∧
  ev_log (error_receiving ec) ∈ trace w1 ∧
  is_open w1 = (Ok false, w1) ∧
  is_open_ w2 = false ∧
  ∃ new, trace w2 = new ++ trace w1 ∧ Forall (after_stop w1) new.
Proof.
  intros w Hl Hi Hec Hno ec w1 w2.
  pose proof (receiver_step_failure w i buf f ec_os data ec_close Hl Hi Hec) as H1.
  fold ec w1 in H1.
  assert (is_open_ w1 = false) as Ho.
  { rewrite H1. simpl. apply close_flag. }
  assert (quiet w1) as Hq.
  { unfold w1, w. rewrite <- run_snoc. apply quiet_run. }
  split; [exact H1|]. split; [|split].
  - rewrite H1. simpl.
    destruct (close_trace ec_close (receive_failed i ec w)) as [new ->].
    apply elem_of_app. right. simpl. apply list_elem_of_here.
  - unfold is_open, read_is_open, bind, get, ret. by rewrite Ho.
  - destruct (stopped_since_run w1 acts' Hno Ho Hq) as (Ho2 & _ & _ & Hnew).
    by split.
Qed.

Lemma receive_failure_closes_witness :
  let w := run (constructed (localhost 9000) 8)
             [call_open; run_receiver 0 0 [] 0; run_receiver 0 0 hello 0;
              run_receiver 0 0 [] 0] in
  let ec := completion None 111 in
  let w1 := step w (run_receiver 0 111 [] 0) in
  let w2 := run w1 [run_receiver 0 0 hello 0; run_worker 0; run_worker 0;
                    call_send_packet hello; run_receiver 0 0 hello 0] in
  w1 = with_receivers (receivers w1) (close 0 (receive_failed 0 ec w)).2 ∧
  ev_log (error_receiving ec) ∈ trace w1 ∧
  is_open w1 = (Ok false, w1) ∧
  is_open_ w2 = false ∧
  ∃ new, trace w2 = new ++ trace w1 ∧ Forall (after_stop w1) new.
Proof.
  apply (receive_failure_closes (localhost 9000) 8
           [call_open; run_receiver 0 0 [] 0; run_receiver 0 0 hello 0;
            run_receiver 0 0 [] 0]
           0 (replicate 8 Byte.x00) None 111 [] 0
           [run_receiver 0 0 hello 0; run_worker 0; run_worker 0;
            call_send_packet hello; run_receiver 0 0 hello 0]).
  - vm_compute. discriminate.
  - vm_compute. reflexivity.
  - vm_compute. reflexivity.
  - intros H. repeat (apply elem_of_cons in H as [H|H]; [discriminate H|]).
    by apply elem_of_nil in H.
Defined.

(** ** A send that fails *)

(** C6: when a send completes with failure, the coroutine logs the error and
    calls [close()]: the step's result is the result of that call, the flag
    is clear afterwards, and on a connection that was open with its socket
    held the whole teardown has run. *)
Theorem send_failure_closes (w : World) (i : nat) (p : packet)
    (f : option error_code) (ec_os ec_close : error_code) :
  life w ≠ terminated →
  senders w !! i = Some (S_await p f) →
  ec_failed (completion f ec_os) = true →
  let ec := completion f ec_os in
  let w1 := step w (run_sender i ec_os ec_close) in
  w1 = (close ec_close (send_failed i ec w)).2 ∧
  ev_log (error_sending ec) ∈ trace w1 ∧
  is_open w1 = (Ok false, w1) ∧
  (is_open_ w = true → sock_is_open (socket_ w) = true →
   w1 = torn_down ec_close (send_failed i ec w)).
Proof.
  intros Hl Hi Hec ec w1.
  assert (w1 = (close ec_close (send_failed i ec w)).2) as H1.
  { unfold w1, ec, send_failed. world w; simpl in *.
    destruct l; try done; unfold_steps; unfold_members; unfold_prims; simpl;
      rewrite !Hi; simpl; rewrite !Hec; simpl;
      destruct o, so; simpl; try destruct (ec_failed ec_close); reflexivity. }
  assert (is_open_ w1 = false) as Ho by (rewrite H1; apply close_flag).
  split; [exact H1|]. split; [|split].
  - rewrite H1. destruct (close_trace ec_close (send_failed i ec w)) as [new ->].
    apply elem_of_app. right. simpl. apply list_elem_of_here.
  - unfold is_open, read_is_open, bind, get, ret. by rewrite Ho.
  - intros Hopen Hsock. rewrite H1. by rewrite close_open.
Qed.

Lemma send_failure_closes_witness :
  let w := run (constructed (localhost 9000) 8)
             [call_open; call_send_packet hello; run_sender 0 0 0] in
  let ec := completion None 101 in
  let w1 := step w (run_sender 0 101 0) in
  w1 = (close 0 (send_failed 0 ec w)).2 ∧
  ev_log (error_sending ec) ∈ trace w1 ∧
  is_open w1 = (Ok false, w1) ∧
  (is_open_ w = true → sock_is_open (socket_ w) = true →
   w1 = torn_down 0 (send_failed 0 ec w)).
Proof.
  apply (send_failure_closes
           (run (constructed (localhost 9000) 8)
              [call_open; call_send_packet hello; run_sender 0 0 0])
           0 hello None 101 0).
  - vm_compute. discriminate.
  - vm_compute. reflexivity.
  - vm_compute. reflexivity.
Defined.

(** ** Multicast membership *)

(** C8: when either socket option fails, [join_multicast_group] returns
    normally, logs one error with a failing code, and changes nothing but
    that log and the socket's options: [close()] is not called, [is_open()]
    answers as before, the descriptor, the local endpoint and the peer stay,
    and on an open connection [send_packet] still schedules its send and the
    receive loop still issues a receive that can complete with a datagram. *)
Theorem join_multicast_group_failure (w : World) (address : ip_address)
    (ec1 ec2 : error_code) :
  ec_failed ec1 = true ∨ ec_failed ec2 = true →
  ∃ ec s,
    let w' := with_trace (ev_log (error_joining ec) :: trace w) (with_socket s w) in
    ec_failed ec = true ∧
    join_multicast_group address ec1 ec2 w = (Ok tt, w') ∧
    sock_is_open s = sock_is_open (socket_ w) ∧
    sock_local s = sock_local (socket_ w) ∧
    sock_remote s = sock_remote (socket_ w) ∧
    is_open w' = (Ok (is_open_ w), w') ∧
    (is_open_ w = true → sock_is_open (socket_ w) = true →
     (∀ p, senders (send_packet p w').2 = senders w ++ [S_start p]) ∧
     (∀ i ec_os data ec_close, receivers w !! i = Some R_head →
        receivers (receiver_step i ec_os data ec_close w').2 !! i
        = Some (R_await (replicate (receive_buffer_size_ w) Byte.x00) None))).
Proof.
  intros Hfail. world w.
  assert (∀ s, ∀ i ec_os data ec_close (tr' : list event),
            rs !! i = Some R_head →
            receivers (receiver_step i ec_os data ec_close
                         (mk_world (mk_socket true sl sr s sg) true n q t rs ss ws l tr')).2 !! i
            = Some (R_await (replicate n Byte.x00) None)) as Hrecv.
  { intros s i ec_os data ec_close tr' Hi.
    unfold receiver_step, receive_packet_begin; unfold_prims; simpl.
    rewrite Hi. simpl. apply list_lookup_insert_eq. by eapply lookup_lt_Some. }
  destruct so.
  - destruct (ec_failed ec1) eqn:H1.
    + exists ec1, (mk_socket true sl sr sa sg). simpl.
      split; [done|]. split.
      { unfold join_multicast_group; unfold_prims; simpl. rewrite !H1. reflexivity. }
      do 4 (split; [done|]). intros -> _. split; [done|]. intros. by apply Hrecv.
    + destruct Hfail as [?|H2]; [congruence|].
      exists ec2, (mk_socket true sl sr true sg). simpl.
      split; [done|]. split.
      { unfold join_multicast_group; unfold_prims; simpl. rewrite !H1. simpl.
        rewrite !H2. reflexivity. }
      do 4 (split; [done|]). intros -> _. split; [done|]. intros. by apply Hrecv.
  - exists bad_descriptor, (mk_socket false sl sr sa sg). simpl.
    do 6 (split; [done|]). intros _ ?. done.
Qed.

Lemma join_multicast_group_failure_witness :
  ∃ ec s,
    let w := sample_open in
    let w' := with_trace (ev_log (error_joining ec) :: trace w) (with_socket s w) in
    ec_failed ec = true ∧
    join_multicast_group (address_v4 3758096385) 0 19 w = (Ok tt, w') ∧
    sock_is_open s = sock_is_open (socket_ w) ∧
    sock_local s = sock_local (socket_ w) ∧
    sock_remote s = sock_remote (socket_ w) ∧
    is_open w' = (Ok (is_open_ w), w') ∧
    (is_open_ w = true → sock_is_open (socket_ w) = true →
     (∀ p, senders (send_packet p w').2 = senders w ++ [S_start p]) ∧
     (∀ i ec_os data ec_close, receivers w !! i = Some R_head →
        receivers (receiver_step i ec_os data ec_close w').2 !! i
        = Some (R_await (replicate (receive_buffer_size_ w) Byte.x00) None))).
Proof.
  apply (join_multicast_group_failure sample_open (address_v4 3758096385) 0 19).
  right. reflexivity.
Defined.

(** ** The dispatch thread and the destructor *)

Lemma worker_detached_step w a :
  worker_ w = not_a_thread → worker_ (step w a) = not_a_thread.
Proof.
  intros Hw. world w; simpl in *; subst. destruct a; crush.
Qed.

Lemma worker_detached_run le size acts :
  worker_ (run (constructed le size) acts) = not_a_thread.
Proof.
  apply run_invariant_all; [intros ??; apply worker_detached_step|done].
Qed.

(** C2 (what the code does): [open()] detaches the dispatch thread, so in
    every state the connection reaches [worker_] is not joinable and the
    destructor's [join()] is never reached; the destructor returns while the
    thread still runs.  In the run below the thread has popped a datagram
    when the object is destroyed, and calls the packet handler with it after
    the destructor has returned. *)
Theorem handler_runs_after_destruction :
  (∀ le size acts, joinable (worker_ (run (constructed le size) acts)) = false) ∧
  let acts := [call_open; run_receiver 0 0 [] 0; run_receiver 0 0 hello 0;
               run_worker 0; run_worker 0; run_dtor_close 0; run_dtor_join] in
  life (run sample_closed acts) = destroyed ∧
  trace (run sample_closed (acts ++ [run_worker 0]))
  = ev_on_packet (hello ++ replicate 3 Byte.x00) :: ev_destroyed
      :: ev_socket_close :: ev_queue_clear
      :: ev_log (info_close (address_v4 2130706433) 9000) :: ev_flag false
      :: trace (run sample_closed (take 5 acts)).
Proof.
  split.
  - intros le size acts. by rewrite worker_detached_run.
  - split; vm_compute; reflexivity.
Qed.

(** ** close(): a race of three callers *)



(** ** Tallies over program counters *)

Lemma tally_app {A} (f : A → bool) l1 l2 :
  tally f (l1 ++ l2) = (tally f l1 + tally f l2)%nat.
Proof. unfold tally. by rewrite List.filter_app, length_app. Qed.

Lemma tally_nil {A} (f : A → bool) : tally f [] = 0%nat.
Proof. reflexivity. Qed.

Lemma tally_cons {A} (f : A → bool) x l :
  tally f (x :: l) = ((if f x then 1 else 0) + tally f l)%nat.
Proof. unfold tally. simpl. by destruct (f x). Qed.

Lemma tally_insert {A} (f : A → bool) (l : list A) (i : nat) (x y : A) :
  l !! i = Some x →
  (tally f (<[i:=y]> l) + (if f x then 1 else 0)
   = tally f l + (if f y then 1 else 0))%nat.
Proof.
  revert i. induction l as [|a l IH]; intros [|i] Hi; simplify_eq/=.
  - rewrite !tally_cons. lia.
  - rewrite !tally_cons. specialize (IH i Hi). lia.
Qed.

Lemma tally_fmap {A} (f : A → bool) (g : A → A) (l : list A) :
  (∀ x, f (g x) = f x) → tally f (g <$> l) = tally f l.
Proof.
  intros Hg. induction l as [|a l IH]; [done|].
  rewrite fmap_cons, !tally_cons, Hg, IH. done.
Qed.

(** ** The flag and its history *)

Lemma lifecycle_step w a : lifecycle w → lifecycle (step w a).
Proof.
  unfold lifecycle, count. intros (H1 & H2 & H3 & H4 & H5 & H6 & H7 & H8).
  world w; simpl in *; subst.
  destruct a; crush; repeat split; try done;
    rewrite ?length_fmap, ?length_insert, ?length_fmap, ?length_app; simpl; lia.
Qed.

Lemma lifecycle_run le size acts : lifecycle (run (constructed le size) acts).
Proof.
  apply run_invariant_all; [intros ??; apply lifecycle_step|].
  by repeat split.
Qed.

(** ** Nothing issued is lost and nothing is made up *)

Lemma awaiting_cancel r : awaiting (cancel_receive r) = awaiting r.
Proof. by destruct r as [|? []|]. Qed.

Lemma started_cancel s : started (cancel_send s) = started s.
Proof. by destruct s as [|? []|]. Qed.

Lemma holding_wake k : holding (wake k) = holding k.
Proof. by destruct k. Qed.

Ltac tally_inserts :=
  repeat match goal with
  | |- context [tally ?f (<[?i:=?y]> ?l)] =>
      match goal with
      | H : l !! i = Some ?x |- _ =>
          let T := fresh "T" in
          pose proof (tally_insert f l i x y H) as T;
          generalize dependent (tally f (<[i:=y]> l)); intros
      end
  end.

Ltac tally_simpl :=
  rewrite ?list_insert_insert_eq;
  rewrite ?(tally_fmap awaiting cancel_receive) by apply awaiting_cancel;
  rewrite ?(tally_fmap started cancel_send) by apply started_cancel;
  rewrite ?(tally_fmap holding wake) by apply holding_wake;
  rewrite ?tally_app, ?tally_cons, ?tally_nil;
  rewrite ?length_fmap, ?length_insert, ?length_fmap, ?length_app;
  tally_inserts; simpl in *.

Lemma accounting_step w a : accounting w → accounting (step w a).
Proof.
  unfold accounting, count. intros (H1 & H2 & H3 & H4).
  world w; simpl in *.
  destruct a; crush; repeat split; try done; tally_simpl; lia.
Qed.

Lemma accounting_run le size acts : accounting (run (constructed le size) acts).
Proof.
  apply run_invariant_all; [intros ??; apply accounting_step|].
  by repeat split.
Qed.

(** X1: whatever is called and scheduled, the flag changes alternate,
    starting with an opening: the openings are the closings plus one while
    the flag is set.  Each opening spawned exactly one receive loop and one
    dispatch thread; the close log line and the clearing of the queue come in
    pairs, at most one pair per closing. *)
Theorem open_close_alternate (le : endpoint) (size : nat) (acts : list action) :
  let w := run (constructed le size) acts in
  let opened := count is_opened (trace w) in
  let closed := count is_closed (trace w) in
  opened = (closed + (if is_open_ w then 1 else 0))%nat ∧
  length (receivers w) = opened ∧
  length (workers w) = opened ∧
  count is_spawn_receive (trace w) = opened ∧
  count is_thread_start (trace w) = opened ∧
  count is_close_log (trace w) = count is_queue_clear (trace w) ∧
  (count is_queue_clear (trace w) ≤ closed)%nat.
Proof.
  intros w opened closed.
  destruct (lifecycle_run le size acts) as (H1 & H2 & H3 & H4 & H5 & H6 & H7 & _).
  done.
Qed.

(** X2: every receive issued on the socket is accounted for: it has
    completed into exactly one push onto the queue or exactly one logged
    receive error, or it is still outstanding. *)
Theorem receives_accounted (le : endpoint) (size : nat) (acts : list action) :
  let w := run (constructed le size) acts in
  count is_async_receive (trace w)
  = (count is_push (trace w) + count is_receive_error (trace w)
     + tally awaiting (receivers w))%nat.
Proof. intros w. by destruct (accounting_run le size acts) as (H & _). Qed.


(** ** open() *)

Lemma open_opened w : is_open_ w = true → open w = (Ok tt, w).
Proof.
  intros H. unfold open; unfold_prims. rewrite H. simpl.
  by rewrite <- H, with_is_open_same.
Qed.

Lemma open_closed w :
  is_open_ w = false → worker_ w = not_a_thread →
  open w
  = (Ok tt,
     mk_world (socket_ w) true (receive_buffer_size_ w) (receive_queue_ w)
       not_a_thread (receivers w ++ [R_head]) (senders w) (workers w ++ [W_head])
       (life w)
       (ev_thread_start (length (workers w)) :: ev_co_spawn_receive
          :: ev_flag true :: trace w)).
Proof.
  intros Ho Hw. world w; simpl in *; subst. reflexivity.
Qed.

Lemma open_again w :
  life w = alive → is_open_ w = true → step w call_open = w.
Proof.
  intros Hl Ho. unfold step, on_alive, exec. rewrite Hl.
  by rewrite open_opened.
Qed.

(** X5: [open()] is idempotent.  On a live object it leaves the flag set;
    any number of calls in a row is one call; on an open connection it
    changes nothing; on a closed one it spawns one receive loop and one
    dispatch thread, which it detaches, and touches neither the socket nor
    the queue. *)
Theorem open_is_idempotent (le : endpoint) (size : nat) (acts : list action)
    (n : nat) :
  let w := run (constructed le size) acts in
  life w = alive →
  let w1 := step w call_open in
  is_open_ w1 = true ∧
  run w (replicate (S n) call_open) = w1 ∧
  (is_open_ w = true → w1 = w) ∧
  (is_open_ w = false →
   receivers w1 = receivers w ++ [R_head] ∧
   workers w1 = workers w ++ [W_head] ∧
   worker_ w1 = not_a_thread ∧
   socket_ w1 = socket_ w ∧ receive_queue_ w1 = receive_queue_ w ∧
   senders w1 = senders w ∧ life w1 = alive).
Proof.
  intros w Hl w1.
  pose proof (worker_detached_run le size acts) as Hw. fold w in Hw.
  assert (is_open_ w1 = true ∧ life w1 = alive ∧
          (is_open_ w = true → w1 = w) ∧
          (is_open_ w = false →
           w1 = (open w).2 ∧ open w = (Ok tt, (open w).2))) as (Ho1 & Hl1 & Hsame & Hnew).
  { unfold w1, step, on_alive, exec. rewrite Hl.
    destruct (is_open_ w) eqn:Ho.
    - rewrite open_opened by done. by rewrite Hl.
    - rewrite open_closed by done. simpl. by rewrite Hl. }
  split; [done|]. split; [|split; [done|]].
  - pose proof (open_again w1 Hl1 Ho1) as Hfix.
    change (run w1 (replicate n call_open) = w1).
    induction n as [|n IH]; [done|]. simpl. by rewrite Hfix.
  - intros Ho. destruct (Hnew Ho) as [-> _]. rewrite open_closed by done.
    by repeat split.
Qed.

Lemma open_is_idempotent_witness :
  let w := run (constructed (localhost 9000) 8) [call_open; call_close 0] in
  let w1 := step w call_open in
  is_open_ w1 = true ∧
  run w (replicate 3 call_open) = w1 ∧
  (is_open_ w = true → w1 = w) ∧
  (is_open_ w = false →
   receivers w1 = receivers w ++ [R_head] ∧
   workers w1 = workers w ++ [W_head] ∧
   worker_ w1 = not_a_thread ∧
   socket_ w1 = socket_ w ∧ receive_queue_ w1 = receive_queue_ w ∧
   senders w1 = senders w ∧ life w1 = alive).
Proof.
  apply (open_is_idempotent (localhost 9000) 8 [call_open; call_close 0] 2).
  vm_compute. reflexivity.
Defined.

(** ** Once the socket is released *)

Lemma released_socket_step w a :
  not_connect a → sock_is_open (socket_ w) = false →
  sock_is_open (socket_ (step w a)) = false.
Proof.
  intros Ha Hs. world w; simpl in *; subst. destruct a; crush.
Qed.

Lemma released_held w a b :
  not_connect a → sock_is_open (socket_ w) = false → quiet w →
  held (step w a) b → held w b.
Proof.
  intros Ha Hs (_ & _ & Hq). destruct Hq as [Hq _]; [by left|].
  unfold held. world w; simpl in *; subst.
  destruct a; crush; intros Hh; try done;
    try (eapply held_insert; [|exact Hh]; done).
  all: destruct Hh as [k Hk].
  all: try (apply lookup_app_Some in Hk as [Hk|[_ Hk]];
            [by eauto|apply list_lookup_singleton_Some in Hk as [_ Hk]; done]).
  all: rewrite list_lookup_fmap in Hk;
    destruct (ws !! k) as [[]|] eqn:Hw; simplify_eq/=; eauto.
Qed.

Lemma released_trace w a :
  not_connect a → sock_is_open (socket_ w) = false → quiet w →
  ∃ new, trace (step w a) = new ++ trace w ∧
         Forall (λ e, is_push e = false ∧ is_pop e = false ∧
                      ∀ b, e = ev_on_packet b → held w b) new.
Proof.
  intros Ha Hs (_ & Hf & Hq). destruct Hq as [Hq Hr]; [by left|].
  unfold held. world w; simpl in *; subst.
  destruct a; crush;
    try (match goal with
         | H : ec_failed (completion _ _) = false |- _ =>
             exfalso; eapply settled_fails; [exact Hf|exact Hr|eassumption|exact H]
         end);
    repeat (apply extends_cons;
            [split; [done|]; split; [done|]; intros b' Hb; simplify_eq; eauto|]);
    apply extends_nil.
Qed.

Lemma released_since_step w1 w a :
  not_connect a → released_since w1 w → released_since w1 (step w a).
Proof.
  intros Ha (Hs & Hq & Hh & new & Ht & Hnew).
  split; [by apply released_socket_step|]. split; [by apply quiet_step|].
  split; [intros b Hb; apply Hh; by eapply released_held|].
  destruct (released_trace w a Ha Hs Hq) as (new' & Ht' & Hnew').
  exists (new' ++ new). split; [by rewrite Ht', Ht, app_assoc|].
  apply Forall_app_2; [|done].
  eapply Forall_impl; [exact Hnew'|]. intros e (He1 & He2 & He3).
  split; [done|]. split; [done|]. intros b ->. apply Hh. by apply He3.
Qed.



(** ** The destructor *)

Lemma never_joined_step w a :
  worker_ w = not_a_thread ∧ count is_thread_join (trace w) = 0%nat →
  worker_ (step w a) = not_a_thread ∧ count is_thread_join (trace (step w a)) = 0%nat.
Proof.
  unfold count. intros [Hw Hj]. world w; simpl in *; subst.
  destruct a; crush.
Qed.

Lemma never_joined_run le size acts :
  count is_thread_join (trace (run (constructed le size) acts)) = 0%nat.
Proof.
  apply (run_invariant_all
           (λ w, worker_ w = not_a_thread ∧ count is_thread_join (trace w) = 0%nat));
    [intros ??; apply never_joined_step|done].
Qed.

Lemma destructor_cases w ec :
  life w = alive → worker_ w = not_a_thread →
  let w' := run w [run_dtor_close ec; run_dtor_join] in
  if is_open_ w && negb (sock_is_open (socket_ w))
  then life (step w (run_dtor_close ec)) = terminated ∧ w' = step w (run_dtor_close ec)
  else life w' = destroyed ∧ is_open_ w' = false ∧
       sock_is_open (socket_ w') = false ∧ head (trace w') = Some ev_destroyed.
Proof.
  intros Hl Hw. world w; simpl in *; subst.
  destruct o, so; simpl; unfold run; simpl; crush.
Qed.

(** X8: the destructor never waits for the dispatch thread.  From every
    state of a live object its two halves run through whatever the threads
    are doing, and no [join()] is ever made.  Unless the connection was
    re-opened after its socket was released, the object ends destroyed with
    the flag clear and the socket released; in that one case [close()] throws
    inside the destructor and the process is terminated. *)
Theorem destructor_never_waits (le : endpoint) (size : nat) (acts : list action)
    (ec : error_code) :
  let w := run (constructed le size) acts in
  life w = alive →
  let w' := run w [run_dtor_close ec; run_dtor_join] in
  count is_thread_join (trace w') = 0%nat ∧
  if is_open_ w && negb (sock_is_open (socket_ w))
  then life w' = terminated
  else life w' = destroyed ∧ is_open_ w' = false ∧
       sock_is_open (socket_ w') = false ∧ head (trace w') = Some ev_destroyed.
Proof.
  intros w Hl w'. split.
  - unfold w', w. rewrite <- run_app. apply never_joined_run.
  - pose proof (destructor_cases w ec Hl (worker_detached_run le size acts)) as H.
    fold w' in H. destruct (is_open_ w && negb (sock_is_open (socket_ w))); [|done].
    destruct H as [H1 H2]. by rewrite H2.
Qed.

Lemma destructor_never_waits_witness :
  let w := run (constructed (localhost 9000) 8)
             [call_open; run_receiver 0 0 [] 0; run_receiver 0 0 hello 0;
              run_worker 0; run_worker 0] in
  let w' := run w [run_dtor_close 0; run_dtor_join] in
  count is_thread_join (trace w') = 0%nat ∧
  if is_open_ w && negb (sock_is_open (socket_ w))
  then life w' = terminated
  else life w' = destroyed ∧ is_open_ w' = false ∧
       sock_is_open (socket_ w') = false ∧ head (trace w') = Some ev_destroyed.
Proof.
  apply (destructor_never_waits (localhost 9000) 8
           [call_open; run_receiver 0 0 [] 0; run_receiver 0 0 hello 0;
            run_worker 0; run_worker 0] 0).
  vm_compute. reflexivity.
Defined.

(** ** close() on a connection that was re-opened *)

(** X9: on a connection whose flag is set while its socket is released (it
    was re-opened after a close), [close()] clears the flag and then throws
    [bad_descriptor] from its log line: the queue is not cleared, no dispatch
    thread is woken, nothing but the flag changes.  Called by the user the
    exception leaves [close()]; in the destructor it ends the process. *)
Theorem close_after_reopen_throws (w : World) (ec : error_code) :
  is_open_ w = true → sock_is_open (socket_ w) = false →
  let w' := with_trace (ev_flag false :: trace w) (with_is_open false w) in
  close ec w = (Throw (system_error bad_descriptor), w') ∧
  receive_queue_ w' = receive_queue_ w ∧ workers w' = workers w ∧
  (life w = alive →
   step w (call_close ec) = w' ∧
   life (step w (run_dtor_close ec)) = terminated).
Proof.
  intros Ho Hs w'. split; [by apply close_reopened|].
  split; [done|]. split; [done|]. intros Hl.
  unfold step, on_alive, exec, dtor_close, noexcept, bind. rewrite Hl.
  rewrite close_reopened by done. done.
Qed.

Lemma close_after_reopen_throws_witness :
  let w := run sample_open [call_close 0; call_open] in
  let w' := with_trace (ev_flag false :: trace w) (with_is_open false w) in
  close 0 w = (Throw (system_error bad_descriptor), w') ∧
  receive_queue_ w' = receive_queue_ w ∧ workers w' = workers w ∧
  (life w = alive →
   step w (call_close 0) = w' ∧
   life (step w (run_dtor_close 0)) = terminated).
Proof.
  apply (close_after_reopen_throws (run sample_open [call_close 0; call_open]) 0).
  - vm_compute. reflexivity.
  - vm_compute. reflexivity.
Defined.

(** ** Every buffer handed on has the configured size *)

Lemma fill_length buf data : length (fill buf data) = length buf.
Proof.
  unfold fill. rewrite length_app, length_take, length_drop. lia.
Qed.

Lemma holds_sized_wake size ws :
  Forall (holds_sized size) ws → Forall (holds_sized size) (wake <$> ws).
Proof.
  intros H. apply Forall_fmap. eapply Forall_impl; [exact H|]. by intros [].
Qed.

Ltac solve_sized :=
  repeat first
    [ done
    | apply allocated_cancel
    | apply holds_sized_wake
    | apply Forall_insert
    | apply Forall_app_2
    | apply Forall_cons_2
    | apply Forall_nil_2
    | by rewrite length_replicate
    | by (simpl; rewrite fill_length;
          match goal with
          | Ha : Forall (allocated _) ?rs, Hi : ?rs !! _ = Some (R_await _ _) |- _ =>
              eapply Forall_lookup_1 in Ha; [|exact Hi]; simpl in Ha; subst;
              apply length_replicate
          end)
    | by (simpl;
          match goal with
          | Ha : Forall (holds_sized _) ?ws, Hi : ?ws !! _ = Some (W_have _) |- _ =>
              eapply Forall_lookup_1 in Ha; [|exact Hi]; exact Ha
          end) ].

Lemma sized_step size w a : sized size w → sized size (step w a).
Proof.
  unfold sized, buffers_allocated. intros ([Hn Hrs] & Hq & Hws & Htr).
  world w; simpl in *; subst.
  destruct a; crush; repeat split; try done;
    try (apply Forall_cons_1 in Hq as [Hb Hq]); solve_sized.
Qed.

Lemma sized_run le size acts : sized size (run (constructed le size) acts).
Proof.
  apply run_invariant_all; [intros ??; apply sized_step|].
  repeat split; try apply Forall_nil_2. by repeat apply Forall_cons_2.
Qed.

(** X10: every buffer that is queued, held by a dispatch thread or was ever
    passed to the packet handler has exactly the configured receive-buffer
    size, whatever the length of the datagram it carries. *)
Theorem handler_buffers_have_buffer_size (le : endpoint) (size : nat)
    (acts : list action) (b : buffer) :
  let w := run (constructed le size) acts in
  (ev_on_packet b ∈ trace w → length b = size) ∧
  (b ∈ receive_queue_ w → length b = size) ∧
  (held w b → length b = size).
Proof.
  intros w. destruct (sized_run le size acts) as (_ & Hq & Hws & Htr).
  fold w in Hq, Hws, Htr. split; [|split].
  - intros Hin. eapply Forall_forall in Htr; [|exact Hin]. exact Htr.
  - intros Hin. eapply Forall_forall in Hq; [|exact Hin]. exact Hq.
  - intros [k Hk]. eapply Forall_lookup_1 in Hws; [|exact Hk]. exact Hws.
Qed.

Lemma handler_buffers_have_buffer_size_witness :
  length (hello ++ replicate 3 Byte.x00) = 8%nat.
Proof.
  apply (proj1 (handler_buffers_have_buffer_size (localhost 9000) 8
                  [call_open; run_receiver 0 0 [] 0; run_receiver 0 0 hello 0;
                   run_worker 0; run_worker 0; run_worker 0]
                  (hello ++ replicate 3 Byte.x00))).
  vm_compute. apply list_elem_of_here.
Defined.

(** ** leave_multicast_group and the success paths of join_multicast_group *)

(** X11: [leave_multicast_group] never throws and never closes the
    connection.  It changes nothing but the socket's group list and the log:
    on a held socket with a successful option the group is dropped and
    nothing is logged; otherwise one error is logged (the option's code, or
    [bad_descriptor] on a released socket) and the socket is as before. *)
Theorem leave_multicast_group_nonfatal (w : World) (address : ip_address)
    (ec : error_code) :
  let failed := negb (sock_is_open (socket_ w)) || ec_failed ec in
  let code := if sock_is_open (socket_ w) then ec else bad_descriptor in
  leave_multicast_group address ec w
  = (Ok tt,
     if failed
     then with_trace (ev_log (error_leaving code) :: trace w) w
     else with_socket (apply_option (leave_group address) (socket_ w)) w) ∧
  is_open_ (leave_multicast_group address ec w).2 = is_open_ w ∧
  sock_is_open (socket_ (leave_multicast_group address ec w).2)
  = sock_is_open (socket_ w) ∧
  receive_queue_ (leave_multicast_group address ec w).2 = receive_queue_ w.
Proof.
  world w. simpl.
  destruct so; simpl; [destruct (ec_failed ec) eqn:He|];
    unfold leave_multicast_group; unfold_prims; simpl; rewrite ?He; simpl;
    rewrite ?He; done.
Qed.

(** X12: [join_multicast_group] on a held socket sets its two options one
    after the other and stops at the first failure.  When reuse-address fails
    the group is not joined (whatever the join would have answered); when the
    join fails, reuse-address stays set; when both succeed both are set and
    nothing is logged.  It returns normally in every case. *)
Theorem join_multicast_group_stops_at_first_failure (w : World)
    (address : ip_address) (ec1 ec2 : error_code) :
  sock_is_open (socket_ w) = true →
  let s1 := apply_option (reuse_address true) (socket_ w) in
  join_multicast_group address ec1 ec2 w
  = (Ok tt,
     if ec_failed ec1
     then with_trace (ev_log (error_joining ec1) :: trace w) w
     else if ec_failed ec2
          then with_trace (ev_log (error_joining ec2) :: trace w) (with_socket s1 w)
          else with_socket (apply_option (join_group address) s1) w).
Proof.
  intros Hs. world w. simpl in *. subst.
  unfold join_multicast_group; unfold_prims; simpl.
  destruct (ec_failed ec1) eqn:H1; simpl; rewrite ?H1; [done|].
  destruct (ec_failed ec2) eqn:H2; simpl; rewrite ?H2; done.
Qed.

Lemma join_multicast_group_stops_at_first_failure_witness :
  let s1 := apply_option (reuse_address true) (socket_ sample_closed) in
  join_multicast_group (address_v4 3758096385) 98 0 sample_closed
  = (Ok tt,
     if ec_failed 98
     then with_trace (ev_log (error_joining 98) :: trace sample_closed) sample_closed
     else if ec_failed 0
          then with_trace (ev_log (error_joining 0) :: trace sample_closed)
                 (with_socket s1 sample_closed)
          else with_socket (apply_option (join_group (address_v4 3758096385)) s1)
                 sample_closed).
Proof.
  apply (join_multicast_group_stops_at_first_failure sample_closed
           (address_v4 3758096385) 98 0).
  reflexivity.
Defined.

(** ** A send that succeeds *)

(** X13: on an open connection with its socket held, [send_packet] followed
    by the two schedulings of the coroutine it spawned, the send completing
    with success, leaves the connection exactly as it was: one finished
    coroutine more, the record of the spawn and of the one send of that
    packet, nothing logged, the flag still set. *)
Theorem send_packet_success_round_trip (w : World) (p : packet)
    (ec_os ec_close1 ec_close2 : error_code) :
  life w = alive → is_open_ w = true → sock_is_open (socket_ w) = true →
  ec_failed ec_os = false →
  let i := length (senders w) in
  run w [call_send_packet p; run_sender i ec_os ec_close1; run_sender i ec_os ec_close2]
  = with_trace (ev_async_send p :: ev_co_spawn_send p :: trace w)
      (with_senders (senders w ++ [S_done]) w).
Proof.
  intros Hl Ho Hs Hec. world w. simpl in *. subst.
  unfold run; simpl.
  unfold step at 3; simpl. unfold on_alive, exec, send_packet; unfold_prims; simpl.
  unfold step at 2; simpl. unfold exec, sender_step; unfold_prims; simpl.
  rewrite list_lookup_middle by done. simpl.
  unfold step; simpl. unfold exec, sender_step; unfold_prims; simpl.
  rewrite list_lookup_insert_eq by (rewrite length_app; simpl; lia). simpl.
  rewrite Hec. simpl. rewrite list_insert_insert_eq.
  replace (length ss) with (length ss + 0)%nat at 1 by lia.
  rewrite insert_app_r. done.
Qed.

Lemma send_packet_success_round_trip_witness :
  let i := length (senders sample_open) in
  run sample_open [call_send_packet hello; run_sender i 0 0; run_sender i 0 0]
  = with_trace (ev_async_send hello :: ev_co_spawn_send hello :: trace sample_open)
      (with_senders (senders sample_open ++ [S_done]) sample_open).
Proof.
  apply (send_packet_success_round_trip sample_open hello 0 0 0);
    vm_compute; reflexivity.
Defined.

(** ** The loops after close() *)

Lemma lookup_cancelled (rs : list receiver_pc) (i : nat) pc :
  rs !! i = Some pc → (cancel_receive <$> rs) !! i = Some (cancel_receive pc).
Proof. intros H. by rewrite list_lookup_fmap, H. Qed.

(** One scheduling of a receive coroutine while the flag is clear, the
    coroutine having no receive that could still complete with a datagram. *)
Lemma receiver_step_flag_clear w i pc ec_os data ecc :
  life w = alive → is_open_ w = false →
  receivers w !! i = Some pc → forced_fails pc → live_receive pc = false →
  step w (run_receiver i ec_os data ecc)
  = match pc with
    | R_head => with_receivers (<[i:=R_done]> (receivers w)) w
    | R_await _ (Some e) =>
        with_trace (ev_log (error_receiving e) :: trace w)
          (with_receivers (<[i:=R_head]> (receivers w)) w)
    | _ => w
    end.
Proof.
  intros Hl Ho Hi Hf Hlive. world w; simpl in *; subst.
  unfold_steps; unfold_members; unfold_prims; simpl; rewrite !Hi; simpl.
  destruct pc as [|buf [e|]|]; simpl in *; try done.
  by rewrite !Hf.
Qed.

Lemma close_ends_receive_loop_gen w ec i pc ec_os1 data1 ecc1 ec_os2 data2 ecc2 :
  life w = alive → is_open_ w = true → sock_is_open (socket_ w) = true →
  Forall forced_fails (receivers w) →
  receivers w !! i = Some pc →
  let w1 := step w (call_close ec) in
  let w2 := run w1 [run_receiver i ec_os1 data1 ecc1;
                    run_receiver i ec_os2 data2 ecc2] in
  w1 = torn_down ec w ∧
  receivers w2 !! i = Some R_done ∧ is_open_ w2 = false ∧ receive_queue_ w2 = [] ∧
  (if awaiting pc
   then ∃ e, ec_failed e = true ∧
             trace w2 = ev_log (error_receiving e) :: trace w1
   else trace w2 = trace w1).
Proof.
  intros Hl Ho Hs Hf Hi w1 w2.
  assert (w1 = torn_down ec w) as H1.
  { unfold w1, step, on_alive, exec. rewrite Hl. by rewrite close_open. }
  split; [done|]. unfold w2. rewrite H1. clear w1 w2 H1.
  pose proof (lookup_cancelled _ _ _ Hi) as Hc.
  pose proof (lookup_lt_Some _ _ _ Hi) as Hlt.
  eapply Forall_lookup_1 in Hf; [|exact Hi].
  assert (forced_fails (cancel_receive pc) ∧ live_receive (cancel_receive pc) = false)
    as [Hf' Hl'] by (by destruct pc as [|buf [e|]|]).
  unfold run. cbn [foldl].
  rewrite (receiver_step_flag_clear (torn_down ec w) i (cancel_receive pc)) by done.
  assert (i < length (cancel_receive <$> receivers w))%nat as Hlt'
    by (by rewrite length_fmap).
  destruct pc as [|buf [e|]|]; simpl in *.
  - rewrite (receiver_step_flag_clear _ i R_done); try done; simpl.
    + by rewrite list_lookup_insert_eq.
    + by rewrite list_lookup_insert_eq.
  - rewrite (receiver_step_flag_clear _ i R_head); try done; simpl.
    + rewrite list_insert_insert_eq, list_lookup_insert_eq by done.
      repeat split; try done. by exists e.
    + by rewrite list_lookup_insert_eq.
  - rewrite (receiver_step_flag_clear _ i R_head); try done; simpl.
    + rewrite list_insert_insert_eq, list_lookup_insert_eq by done.
      repeat split; try done. by exists operation_aborted.
    + by rewrite list_lookup_insert_eq.
  - by rewrite (receiver_step_flag_clear _ i R_done).
Qed.



Lemma worker_step_flag_clear w i pc :
  life w ≠ terminated → is_open_ w = false →
  workers w !! i = Some pc → pc ≠ W_wait →
  step w (run_worker i)
  = match pc with
    | W_head | W_woken => with_workers (<[i:=W_done]> (workers w)) w
    | W_have b =>
        with_trace (ev_on_packet b :: trace w)
          (with_workers (<[i:=W_head]> (workers w)) w)
    | _ => w
    end.
Proof.
  intros Hl Ho Hi Hpc. world w; simpl in *; subst.
  unfold_steps; unfold_prims; simpl; rewrite !Hi; simpl.
  by destruct l, pc.
Qed.

(** X15: once the flag is clear, a dispatch thread that is not parked inside
    [pop_wait()] returns within two schedulings: at the loop head at once;
    holding a datagram, after calling the handler with it, once.  It takes
    nothing from the queue. *)
Theorem cleared_flag_ends_dispatch (w : World) (i : nat) (pc : worker_pc) :
  life w ≠ terminated → is_open_ w = false →
  workers w !! i = Some pc → pc ≠ W_wait →
  let w2 := run w [run_worker i; run_worker i] in
  workers w2 !! i = Some W_done ∧
  trace w2 = match pc with
             | W_have b => ev_on_packet b :: trace w
             | _ => trace w
             end ∧
  receive_queue_ w2 = receive_queue_ w ∧ is_open_ w2 = false.
Proof.
  intros Hl Ho Hi Hpc w2. unfold w2. clear w2.
  pose proof (lookup_lt_Some _ _ _ Hi) as Hlt.
  unfold run. cbn [foldl]. rewrite (worker_step_flag_clear w i pc) by done.
  destruct pc; try done; simpl.
  - rewrite (worker_step_flag_clear _ i W_done); try done; simpl;
      by rewrite list_lookup_insert_eq.
  - rewrite (worker_step_flag_clear _ i W_done); try done; simpl;
      by rewrite list_lookup_insert_eq.
  - rewrite (worker_step_flag_clear _ i W_head); try done; simpl.
    + by rewrite list_insert_insert_eq, list_lookup_insert_eq.
    + by rewrite list_lookup_insert_eq.
  - by rewrite (worker_step_flag_clear _ i W_done).
Qed.

Lemma cleared_flag_ends_dispatch_witness :
  let w := run (constructed (localhost 9000) 8)
             [call_open; run_receiver 0 0 [] 0; run_receiver 0 0 hello 0;
              run_worker 0; run_worker 0; call_close 0] in
  let w2 := run w [run_worker 0; run_worker 0] in
  workers w2 !! 0%nat = Some W_done ∧
  trace w2 = match W_have (hello ++ replicate 3 Byte.x00) with
             | W_have b => ev_on_packet b :: trace w
             | _ => trace w
             end ∧
  receive_queue_ w2 = receive_queue_ w ∧ is_open_ w2 = false.
Proof.
  apply (cleared_flag_ends_dispatch
           (run (constructed (localhost 9000) 8)
              [call_open; run_receiver 0 0 [] 0; run_receiver 0 0 hello 0;
               run_worker 0; run_worker 0; call_close 0])
           0 (W_have (hello ++ replicate 3 Byte.x00))).
  - vm_compute. discriminate.
  - vm_compute. reflexivity.
  - vm_compute. reflexivity.
  - discriminate.
Defined.

(** ** The receive loop while the connection is open *)

Lemma receiver_step_issue w i ec_os data ecc :
  is_open_ w = true → receivers w !! i = Some R_head →
  receiver_step i ec_os data ecc w
  = (Ok tt,
     with_receivers
       (<[i:=R_await (replicate (receive_buffer_size_ w) Byte.x00)
               (if sock_is_open (socket_ w) then None else Some bad_descriptor)]>
          (receivers w))
       (with_trace (ev_async_receive (receive_buffer_size_ w) :: trace w) w)).
Proof.
  intros Ho Hi. world w; simpl in *; subst.
  unfold receiver_step, receive_packet_begin; unfold_prims; simpl.
  rewrite Hi. simpl. by rewrite length_replicate.
Qed.

Lemma step_run_receiver w i ec_os data ecc w' r :
  life w ≠ terminated → receiver_step i ec_os data ecc w = (r, w') →
  r ≠ Abort → step w (run_receiver i ec_os data ecc) = w'.
Proof.
  intros Hl Hr Hab. unfold step, exec. rewrite Hr.
  by destruct (life w), r.
Qed.

(** X16: while the connection is open with its socket held, a receive loop
    at its head issues a receive into a new buffer of the configured size,
    all zero; when that completes with a datagram the buffer is pushed and
    the connection stays open; the loop's next scheduling issues the next
    receive, again into a new zeroed buffer. *)
Theorem receive_loop_rearms (w : World) (i : nat) (data : buffer)
    (ec_os : error_code) (e1 : error_code) (d1 : buffer) (c1 c2 : error_code)
    (e3 : error_code) (d3 : buffer) (c3 : error_code) :
  life w ≠ terminated → is_open_ w = true → sock_is_open (socket_ w) = true →
  receivers w !! i = Some R_head → ec_failed ec_os = false →
  let size := receive_buffer_size_ w in
  let b := take size data ++ replicate (size - length data) Byte.x00 in
  run w [run_receiver i e1 d1 c1; run_receiver i ec_os data c2;
         run_receiver i e3 d3 c3]
  = with_trace (ev_async_receive size :: ev_queue_push b
                  :: ev_async_receive size :: trace w)
      (with_queue (receive_queue_ w ++ [b])
         (with_receivers (<[i:=R_await (replicate size Byte.x00) None]> (receivers w))
            w)).
Proof.
  intros Hl Ho Hs Hi Hec size b.
  pose proof (lookup_lt_Some _ _ _ Hi) as Hlt.
  unfold run. cbn [foldl].
  set (buf := replicate size Byte.x00).
  set (w1 := with_receivers (<[i:=R_await buf None]> (receivers w))
               (with_trace (ev_async_receive size :: trace w) w)).
  assert (step w (run_receiver i e1 d1 c1) = w1) as ->.
  { apply (step_run_receiver w i e1 d1 c1 w1 (Ok tt)); [done| |discriminate].
    rewrite receiver_step_issue by done. by rewrite Hs. }
  set (w2 := with_trace (ev_queue_push b :: trace w1)
               (with_queue (receive_queue_ w1 ++ [b])
                  (with_receivers (<[i:=R_head]> (receivers w1)) w1))).
  assert (step w1 (run_receiver i ec_os data c2) = w2) as ->.
  { apply (step_run_receiver w1 i ec_os data c2 w2 (Ok tt));
      [exact Hl| |discriminate].
    rewrite (receiver_step_success w1 i buf None);
      [|by apply list_lookup_insert_eq|done].
    unfold buf. by rewrite fill_allocated. }
  apply (step_run_receiver w2 i e3 d3 c3 _ (Ok tt)); [exact Hl| |discriminate].
  rewrite receiver_step_issue;
    [|done|simpl; rewrite list_insert_insert_eq; by apply list_lookup_insert_eq].
  unfold w2, w1, buf, size. world w. simpl in *. subst.
  by rewrite !list_insert_insert_eq.
Qed.

Lemma receive_loop_rearms_witness :
  let size := receive_buffer_size_ sample_open in
  let b := take size hello ++ replicate (size - length hello) Byte.x00 in
  run sample_open [run_receiver 0 0 [] 0; run_receiver 0 0 hello 0;
                   run_receiver 0 0 [] 0]
  = with_trace (ev_async_receive size :: ev_queue_push b
                  :: ev_async_receive size :: trace sample_open)
      (with_queue (receive_queue_ sample_open ++ [b])
         (with_receivers
            (<[0%nat:=R_await (replicate size Byte.x00) None]> (receivers sample_open))
            sample_open)).
Proof.
  apply (receive_loop_rearms sample_open 0 hello 0 0 [] 0 0 0 [] 0).
  - vm_compute. discriminate.
  - vm_compute. reflexivity.
  - vm_compute. reflexivity.
  - vm_compute. reflexivity.
  - reflexivity.
Defined.

(** ** send_packet calls and the sends they lead to *)

Lemma spawned_step w a :
  spawned (trace (step w a))
  = spawned (trace w)
    ++ match a with
       | call_send_packet p => if accepts w then [p] else []
       | _ => []
       end.
Proof.
  unfold accepts. world w; simpl in *.
  destruct a; crush; by rewrite ?app_nil_r.
Qed.

Lemma spawned_run acts : ∀ w,
  spawned (trace (run w acts)) = spawned (trace w) ++ accepted w acts.
Proof.
  induction acts as [|a acts IH]; intros w; simpl.
  - by rewrite app_nil_r.
  - rewrite IH, spawned_step. by rewrite app_assoc.
Qed.

Lemma spawned_length t : length (spawned t) = count is_spawn_send t.
Proof.
  unfold count. induction t as [|e t IH]; [done|].
  simpl. rewrite length_app, IH. destruct e; simpl; lia.
Qed.

Lemma issued_elem t p : ev_async_send p ∈ t → p ∈ issued t.
Proof.
  induction t as [|e t IH]; intros Hin.
  - by apply elem_of_nil in Hin.
  - simpl. apply elem_of_app. apply elem_of_cons in Hin as [<-|Hin].
    + right. apply list_elem_of_here.
    + left. by apply IH.
Qed.

Lemma sends_from_weaken l l' ss :
  Forall (sends_from l) ss → Forall (sends_from (l ++ l')) ss.
Proof.
  intros H. eapply Forall_impl; [exact H|].
  intros [p|p f|]; simpl; try done; intros Hp; apply elem_of_app; by left.
Qed.

Lemma issued_weaken (l l' ps : list (list Byte.byte)) :
  Forall (λ p, p ∈ l) ps → Forall (λ p, p ∈ l ++ l') ps.
Proof.
  intros H. eapply Forall_impl; [exact H|].
  intros p Hp. apply elem_of_app. by left.
Qed.

Lemma sends_from_cancel l ss :
  Forall (sends_from l) ss → Forall (sends_from l) (cancel_send <$> ss).
Proof.
  intros H. apply Forall_fmap. eapply Forall_impl; [exact H|].
  by intros [p|p [e|]|].
Qed.

Ltac solve_sends :=
  rewrite ?app_nil_r;
  repeat first
    [ done
    | by (simpl; apply elem_of_app; right; apply list_elem_of_here)
    | by (match goal with
          | Ha : Forall (sends_from _) ?ss, Hi : ?ss !! _ = Some _ |- _ =>
              eapply Forall_lookup_1 in Ha; [|exact Hi]; exact Ha
          end)
    | apply Forall_insert
    | apply Forall_app_2
    | apply Forall_cons_2
    | apply Forall_nil_2
    | apply sends_from_cancel
    | apply sends_from_weaken
    | apply issued_weaken ].

Lemma sends_known_step w a : sends_known w → sends_known (step w a).
Proof.
  unfold sends_known. intros [Hs Hi]. world w; simpl in *.
  destruct a; crush; split; solve_sends.
Qed.

Lemma sends_known_run le size acts :
  sends_known (run (constructed le size) acts).
Proof.
  apply run_invariant_all; [intros ??; apply sends_known_step|].
  split; simpl; apply Forall_nil_2.
Qed.

(** X4: the send coroutines are the [send_packet] calls that found the
    connection open, one coroutine per call, for the packet of the call and
    in the order of the calls; a call on a closed connection spawns none.  A
    coroutine issues its send at most once, and a send is issued on the
    socket only for a packet of such a call. *)
Theorem sends_accounted (le : endpoint) (size : nat) (acts : list action) :
  let w := run (constructed le size) acts in
  let calls := accepted (constructed le size) acts in
  spawned (trace w) = calls ∧
  length (senders w) = length calls ∧
  count is_async_send (trace w) = tally started (senders w) ∧
  (count is_async_send (trace w) ≤ length calls)%nat ∧
  ∀ p, ev_async_send p ∈ trace w → p ∈ calls.
Proof.
  intros w calls.
  assert (spawned (trace w) = calls) as Hsp.
  { unfold w, calls. by rewrite spawned_run. }
  destruct (accounting_run le size acts) as (_ & _ & H3 & H4).
  fold w in H3, H4.
  assert (length (senders w) = length calls) as Hlen.
  { by rewrite <- Hsp, spawned_length. }
  split; [done|]. split; [done|]. split; [done|]. split.
  - rewrite H4, <- Hlen. unfold tally. apply List.filter_length_le.
  - intros p Hp. destruct (sends_known_run le size acts) as [_ Hi].
    fold w in Hi. rewrite <- Hsp.
    eapply Forall_forall in Hi; [exact Hi|]. by apply issued_elem.
Qed.

Lemma sends_accounted_witness :
  hello ∈ accepted (constructed (localhost 9000) 8)
            [call_send_packet hello; call_open; call_send_packet hello;
             run_sender 0 0 0].
Proof.
  apply (sends_accounted (localhost 9000) 8
           [call_send_packet hello; call_open; call_send_packet hello;
            run_sender 0 0 0]).
  vm_compute. apply list_elem_of_here.
Defined.

(** ** connect() whose socket connect succeeds *)

(** X6: when the socket connect succeeds (on a held socket, or on a released
    one that Asio could open again), what [connect] does next goes by the
    peer the socket then reports, not by the endpoint that was asked for.
    With a peer, [connect] returns normally, logs that peer as connected, and
    [remote_endpoint()] returns it.  Without one (as after a connect to port
    0) the log line's [remote_endpoint()] throws [not_connected] out of
    [connect], with nothing logged.  Either way the socket is held, and the
    open flag, the queue, the coroutines and the threads are as before. *)
Theorem connect_then_remote_endpoint (w : World) (remote : endpoint)
    (ec_open ec : error_code) (os_local : endpoint) (os_peer : option endpoint) :
  sock_is_open (socket_ w) = true ∨ ec_failed ec_open = false →
  ec_failed ec = false →
  ∃ w',
    match os_peer with
    | Some peer =>
        connect remote ec_open ec os_local os_peer w = (Ok tt, w') ∧
        remote_endpoint w' = (Ok peer, w') ∧
        trace w'
        = ev_log (info_connected (ep_address peer) (ep_port peer)) :: trace w
    | None =>
        connect remote ec_open ec os_local os_peer w
        = (Throw (system_error not_connected), w') ∧
        remote_endpoint w' = (Throw (system_error not_connected), w') ∧
        trace w' = trace w
    end ∧
    sock_is_open (socket_ w') = true ∧
    is_open_ w' = is_open_ w ∧ receive_queue_ w' = receive_queue_ w ∧
    receivers w' = receivers w ∧ senders w' = senders w ∧
    workers w' = workers w.
Proof.
  intros Hs Hec. world w; simpl in *.
  assert (so = true ∨ (so = false ∧ ec_failed ec_open = false)) as [->|[-> Hop]]
    by (destruct so; tauto).
  - destruct os_peer as [peer|]; eexists; (split; [split|]);
      try (unfold connect; unfold_prims; simpl; rewrite !Hec; reflexivity);
      by repeat split.
  - destruct os_peer as [peer|]; eexists; (split; [split|]);
      try (unfold connect; unfold_prims; simpl; rewrite !Hop; simpl;
           rewrite !Hec; reflexivity);
      by repeat split.
Qed.

(** A connect to the wildcard address: the socket reports the address the
    system chose, and that is what is logged and returned. *)
Lemma connect_then_remote_endpoint_witness :
  ∃ w',
    (connect (mk_endpoint (address_v4 0) 9001) 0 0 (localhost 9000)
       (Some (localhost 9001)) sample_open = (Ok tt, w') ∧
     remote_endpoint w' = (Ok (localhost 9001), w') ∧
     trace w'
     = ev_log (info_connected (ep_address (localhost 9001))
                 (ep_port (localhost 9001))) :: trace sample_open) ∧
    sock_is_open (socket_ w') = true ∧
    is_open_ w' = is_open_ sample_open ∧
    receive_queue_ w' = receive_queue_ sample_open ∧
    receivers w' = receivers sample_open ∧ senders w' = senders sample_open ∧
    workers w' = workers sample_open.
Proof.
  apply (connect_then_remote_endpoint sample_open (mk_endpoint (address_v4 0) 9001)
           0 0 (localhost 9000) (Some (localhost 9001))).
  - left. reflexivity.
  - reflexivity.
Defined.
